(** * TSGeomUtils: the closest-pair routine of [TSMT$GeomUtils]

    A shallow embedding of [closestPoints] and of its recursive helper
    [__closestPoint] (src/GeomUtils.ts), and the properties of the
    specification that concern them.

    Modelling conventions.

    - Numbers.  Coordinates are integers ([Z]); sums, differences and
      products of coordinates are exact.  The only other numbers the routine
      handles are [Number.MAX_VALUE] and the results of [Math.sqrt], kept
      symbolically as [Math_sqrt s] (the square root of the integer [s]);
      comparisons with a square root are decided on the squares.
      [Number.MAX_VALUE] is above every coordinate and every distance.
      This is the arithmetic of the source, which computes in IEEE doubles,
      for integer coordinates of magnitude at most 2^23 ([in_range]):
      differences are at most 2^24, squares and their sums at most 2^49,
      all exact; two different integers up to 2^49 have square roots more
      than 2^-26 apart, and [Math.sqrt] rounds by at most 2^-29 there, so the
      order of the rounded roots is the order of the squares, and an
      integer is below a rounded root exactly when its square is below the
      square.  Outside this range a square can overflow to [Infinity] and
      a sum can round; statements that depend on the arithmetic carry the
      hypothesis [in_range], and the module [Double] runs the routine on
      doubles themselves.
    - Arrays live in a heap of array objects addressed by references:
      [new Array()] and [slice] allocate, [push] and [sort] update the
      array in place.  The arrays [tmp] and [points] are local to one
      activation and never shared; they are plain lists.
    - [Array.prototype.sort] is the stable sort of ECMAScript 2019.
    - Reading a property of [undefined] raises; the model's [Fault].
    - The recursion of [__closestPoint] is bounded by a fuel argument;
      [closestPoint_enough_fuel] shows which fuel is enough.
    - The two last blocks of [closestPoints] are definitions of their own,
      [closest_of_three] and [closest_of_many].
    - The field [examined] of the state is a history variable (not in the
      source): the pairs whose distance was computed, each with the value
      of [_bestDist] after the step that examined it. *)

From Stdlib Require Import ZArith Lia Bool QArith Qabs Qminmax Lqa Floats.
From stdpp Require Import base list.

Local Open Scope Z_scope.

(** ** Data *)

(** An object [{x: .., y: ..}]. *)
Record Point := mkPoint { x : Z; y : Z }.

(** The property names used by the comparators. *)
Inductive PropName := prop_x | prop_y.

Definition get (o : Point) (prop : PropName) : Z :=
  match prop with prop_x => x o | prop_y => y o end.

(** The numbers that hold distances. *)
Inductive num := MAX_VALUE | Math_sqrt (s : Z).

(** [a < b] on distances. *)
Definition num_ltb (a b : num) : bool :=
  match a, b with
  | MAX_VALUE, _ => false
  | Math_sqrt _, MAX_VALUE => true
  | Math_sqrt s, Math_sqrt t => s <? t
  end.

(** [a < d] for an integer [a] and a distance [d]. *)
Definition Z_ltb_num (a : Z) (d : num) : bool :=
  match d with
  | MAX_VALUE => true
  | Math_sqrt s => (a <? 0) || (a * a <? s)
  end.

Definition Math_min (a b : num) : num := if num_ltb b a then b else a.

(** [Math.sqrt(dx*dx + dy*dy)] for [dx = b.x - a.x], [dy = b.y - a.y]. *)
Definition distance (a b : Point) : num :=
  let dx := x b - x a in
  let dy := y b - y a in
  Math_sqrt (dx * dx + dy * dy).

(** An array object of the heap. *)
Inductive JSArray := NumArray (l : list Z) | ObjArray (l : list Point).

Definition ref := nat.

(** The fields of the instance used by the closest-points algorithm. *)
Record This := mkThis {
  _best1 : option Point;
  _best2 : option Point;
  _bestDist : num
}.

Record State := mkState {
  heap : list JSArray;
  this : This;
  examined : list (Point * Point * num)   (* most recent first *)
}.

(** ** The monad of the routine: state, faults and fuel *)

Inductive Result (A : Type) := Done (a : A) | Fault | OutOfFuel.
Arguments Done {A} a.
Arguments Fault {A}.
Arguments OutOfFuel {A}.

Definition M (A : Type) : Type := State -> Result (A * State).

Definition ret {A} (a : A) : M A := fun s => Done (a, s).

Definition bind {A B} (m : M A) (k : A -> M B) : M B :=
  fun s => match m s with
           | Done (a, s') => k a s'
           | Fault => Fault
           | OutOfFuel => OutOfFuel
           end.

Definition fault {A} : M A := fun _ => Fault.
Definition out_of_fuel {A} : M A := fun _ => OutOfFuel.

Notation "'let!' v ':=' m 'in' k" := (bind m (fun v => k))
  (at level 10, v name, m at level 100, k at level 200).
Notation "'exec!' m 'in' k" := (bind m (fun _ => k))
  (at level 10, m at level 100, k at level 200).

(** [a[i]] on a list: [None] is [undefined]. *)
Definition index {A} (l : list A) (i : Z) : option A :=
  if i <? 0 then None else l !! Z.to_nat i.

(** *** Heap operations *)

(** [new Array()], and the copy made by [slice]. *)
Definition alloc (a : JSArray) : M ref :=
  fun s => Done (length (heap s),
                 mkState (heap s ++ [a]) (this s) (examined s)).

Definition read_array (r : ref) : M JSArray :=
  fun s => match heap s !! r with
           | Some a => Done (a, s)
           | None => Fault
           end.

Definition write_array (r : ref) (a : JSArray) : M unit :=
  fun s => Done (tt, mkState (<[r := a]> (heap s)) (this s) (examined s)).

Definition nums (r : ref) : M (list Z) :=
  let! a := read_array r in
  match a with NumArray l => ret l | ObjArray _ => fault end.

Definition objs (r : ref) : M (list Point) :=
  let! a := read_array r in
  match a with ObjArray l => ret l | NumArray _ => fault end.

(** [a.length] of an array of numbers. *)
Definition num_length (r : ref) : M Z :=
  let! l := nums r in ret (Z.of_nat (length l)).

(** [a[i]] of an array of numbers, used as a number. *)
Definition num_at (r : ref) (i : Z) : M Z :=
  let! l := nums r in
  match index l i with Some v => ret v | None => fault end.

(** [a[i]] of an array of objects; [None] is [undefined]. *)
Definition obj_at (r : ref) (i : Z) : M (option Point) :=
  let! l := objs r in ret (index l i).

(** [o[..]] for a possibly undefined [o]: raises on [undefined]. *)
Definition deref (o : option Point) : M Point :=
  match o with Some q => ret q | None => fault end.

(** [a.push(o)]. *)
Definition push (r : ref) (o : Point) : M unit :=
  let! l := objs r in write_array r (ObjArray (l ++ [o])).

(** [a.slice()]. *)
Definition slice (r : ref) : M ref :=
  let! l := objs r in alloc (ObjArray l).

(** *** Fields of [this] and the history *)

Definition get_bestDist : M num := fun s => Done (_bestDist (this s), s).

Definition set_best1 (o : option Point) : M unit :=
  fun s => Done (tt, mkState (heap s)
                       (mkThis o (_best2 (this s)) (_bestDist (this s)))
                       (examined s)).

Definition set_best2 (o : option Point) : M unit :=
  fun s => Done (tt, mkState (heap s)
                       (mkThis (_best1 (this s)) o (_bestDist (this s)))
                       (examined s)).

Definition set_bestDist (d : num) : M unit :=
  fun s => Done (tt, mkState (heap s)
                       (mkThis (_best1 (this s)) (_best2 (this s)) d)
                       (examined s)).

Definition get_best1 : M (option Point) := fun s => Done (_best1 (this s), s).
Definition get_best2 : M (option Point) := fun s => Done (_best2 (this s), s).

(** History: the distance of the pair [(a, b)] has just been computed and
    the step that used it is over. *)
Definition note (a b : Point) : M unit :=
  fun s => Done (tt, mkState (heap s) (this s)
                       ((a, b, _bestDist (this s)) :: examined s)).

(** The history starts afresh when the running best is reset. *)
Definition reset_history : M unit :=
  fun s => Done (tt, mkState (heap s) (this s) []).

(** ** Sorting *)

(** The comparator passed to [sort]: compares on the first property of
    [sortProps], moving to the next one while the values are equal and
    properties remain. *)
Fixpoint comparator (sortProps : list PropName) (a b : Point) : Z :=
  match sortProps with
  | [] => 0
  | prop :: props =>
      if (get a prop =? get b prop) && negb (length props =? 0)%nat
      then comparator props a b
      else if get a prop =? get b prop then 0
           else if get a prop >? get b prop then 1 else -1
  end.

(** Stable insertion: [a] preceded every element of [l] in the array, so it
    goes before the first element it does not compare greater than. *)
Fixpoint insert_sorted (cmp : Point -> Point -> Z) (a : Point) (l : list Point)
  : list Point :=
  match l with
  | [] => [a]
  | b :: l' => if cmp a b >? 0 then b :: insert_sorted cmp a l' else a :: b :: l'
  end.

Fixpoint sorted_copy (cmp : Point -> Point -> Z) (l : list Point) : list Point :=
  match l with
  | [] => []
  | a :: l' => insert_sorted cmp a (sorted_copy cmp l')
  end.

(** [a.sort(cmp)]: sorts the array in place. *)
Definition sort (r : ref) (cmp : Point -> Point -> Z) : M unit :=
  let! l := objs r in write_array r (ObjArray (sorted_copy cmp l)).

(** ** [__closestPoint] *)

(** The loop [for (i = from; i <= to; ++i)] that fills [tmp]; [count] is
    the number of iterations left. *)
Fixpoint strip_loop (count : nat) (pointsByY : ref) (median : option Point)
    (d : num) (i : Z) (tmp : list Point) : M (list Point) :=
  match count with
  | O => ret tmp
  | S count' =>
      let! o := obj_at pointsByY i in
      let! q := deref o in
      let! m := deref median in
      if Z_ltb_num (Z.abs (x q - x m)) d
      then strip_loop count' pointsByY median d (i + 1) (tmp ++ [q])
      else strip_loop count' pointsByY median d (i + 1) tmp
  end.

(** The body of the [while] loop for the pair [(tmp[i], tmp[j])]. *)
Definition examine (ti tj : Point) (d : num) : M num :=
  let dist := distance ti tj in
  let! d' := (if num_ltb dist d
              then
                let! best := get_bestDist in
                exec! (if num_ltb dist best
                       then exec! set_bestDist dist in
                            exec! set_best1 (Some ti) in
                            set_best2 (Some tj)
                       else ret tt) in
                ret dist
              else ret d) in
  exec! note ti tj in
  ret d'.

(** The [while] loop: [rest] is [tmp[j .. m-1]]. *)
Fixpoint scan_from (ti : Point) (rest : list Point) (d : num) : M num :=
  match rest with
  | [] => ret d
  | tj :: rest' =>
      if Z_ltb_num (y tj - y ti) d
      then let! d' := examine ti tj d in scan_from ti rest' d'
      else ret d
  end.

(** The loop [for (i = 0; i < m; ++i)]: [tmp] is [tmp[i .. m-1]]. *)
Fixpoint scan (tmp : list Point) (d : num) : M num :=
  match tmp with
  | [] => ret d
  | ti :: rest => let! d' := scan_from ti rest d in scan rest d'
  end.

Fixpoint __closestPoint (fuel : nat) (pointsByX pointsByY : ref) (from to : Z)
  : M num :=
  match fuel with
  | O => out_of_fuel
  | S fuel' =>
      if to <=? from then ret MAX_VALUE
      else
        let mid := from + (to - from) / 2 in
        let! median := obj_at pointsByX mid in
        let! left := __closestPoint fuel' pointsByX pointsByY from mid in
        let! right := __closestPoint fuel' pointsByX pointsByY (mid + 1) to in
        let d := Math_min left right in
        exec! sort pointsByY (comparator [prop_y]) in
        let! tmp := strip_loop (Z.to_nat (to - from + 1)) pointsByY median d from [] in
        scan tmp d
  end.

(** ** [closestPoints] *)

(** The loop [for (i = 0; i < n; ++i) p.push({x: _xcoord[i], y: _ycoord[i]})]. *)
Fixpoint fill_loop (count : nat) (p _xcoord _ycoord : ref) (i : Z) : M unit :=
  match count with
  | O => ret tt
  | S count' =>
      let! xi := num_at _xcoord i in
      let! yi := num_at _ycoord i in
      exec! push p (mkPoint xi yi) in
      fill_loop count' p _xcoord _ycoord (i + 1)
  end.

(** The block [if (n == 3) { .. }] of [closestPoints], on the x-sorted
    array [p]: the two pairs adjacent in [p] are compared.  In the result,
    [None] is [null]. *)
Definition closest_of_three (p : ref) : M (list (option Point)) :=
  let! o0 := obj_at p 0 in
  let! o1 := obj_at p 1 in
  let! p1 := deref o1 in
  let! p0 := deref o0 in
  exec! set_bestDist (distance p0 p1) in
  exec! note p0 p1 in
  let! o2 := obj_at p 2 in
  let! p2 := deref o2 in
  let d := distance p1 p2 in
  let! best := get_bestDist in
  exec! note p1 p2 in
  if num_ltb d best
  then ret [o1; o2]
  else ret [o0; o1].

(** The last block of [closestPoints] ("now, for the fun part"), on the
    x-sorted array [p] of [n] points. *)
Definition closest_of_many (p : ref) (n : Z) : M (list (option Point)) :=
  let! pY := slice p in
  let n1 := n - 1 in
  exec! __closestPoint (Z.to_nat n) p pY 0 n1 in
  let! b1 := get_best1 in
  let! b2 := get_best2 in
  ret [b1; b2].

(** [None] is a null or absent argument. *)
Definition closestPoints (_xcoord _ycoord : option ref)
  : M (list (option Point)) :=
  match _xcoord, _ycoord with
  | Some xr, Some yr =>
      let! xlen := num_length xr in
      let! ylen := num_length yr in
      if (xlen =? 0) || (ylen =? 0) then ret []
      else if negb (xlen =? ylen) then ret []
      else
        let n := xlen in
        if n =? 0 then ret []
        else if n =? 1 then
          let! x0 := num_at xr 0 in
          let! y0 := num_at yr 0 in
          ret [Some (mkPoint x0 y0); Some (mkPoint x0 y0)]
        else
          let! points := (if n =? 2
                          then
                            let! x0 := num_at xr 0 in
                            let! y0 := num_at yr 0 in
                            let! x1 := num_at xr 1 in
                            let! y1 := num_at yr 1 in
                            ret [mkPoint x0 y0; mkPoint x1 y1]
                          else ret []) in
          let! p := alloc (ObjArray []) in
          exec! fill_loop (Z.to_nat n) p xr yr 0 in
          exec! sort p (comparator [prop_x]) in
          exec! set_best1 None in
          exec! set_best2 None in
          exec! set_bestDist MAX_VALUE in
          exec! reset_history in
          if n =? 3 then closest_of_three p
          else closest_of_many p n
  | _, _ => ret []
  end.

(** Running the routine on two fresh arrays in a fresh instance.  (The
    constructor stores empty objects in [_best1] and [_best2];
    [closestPoints] overwrites them with [null] before it reads them.) *)
Definition fresh_this : This := mkThis None None MAX_VALUE.

Definition run (xs ys : list Z) : Result (list (option Point) * State) :=
  closestPoints (Some 0%nat) (Some 1%nat)
    (mkState [NumArray xs; NumArray ys] fresh_this []).

Definition result_of {A} (r : Result (A * State)) : Result A :=
  match r with
  | Done (a, _) => Done a
  | Fault => Fault
  | OutOfFuel => OutOfFuel
  end.

(** ** The coordinate utilities of the class

    The other methods of [TSMT$GeomUtils] and the function [compare] take
    raw coordinates.  They use tolerances and divisions, so their numbers
    are rationals ([Q]) with exact arithmetic; a decimal constant of the
    source is the rational it denotes.  A division the source does not
    guard yields no value ([None]) when the divisor is zero.  The source
    computes in IEEE doubles: a computed coordinate or distance is the
    exact one up to rounding, and where rounding can change a boolean or
    an orientation the statement carries the hypothesis [pixels], under
    which the double arithmetic is exact. *)
Module Geom.

Local Open Scope Q_scope.

(** [a < b]; [a > b] is [ltb b a], [a <= b] is [Qle_bool a b] and [a == b]
    is [Qeq_bool a b]. *)
Definition ltb (a b : Q) : bool := negb (Qle_bool b a).

Inductive DirEnum := LEFT | RIGHT | ON.

Record Point := mkPoint { x : Q; y : Q }.

(** A bounding-box object as [boxesIntersect] reads it, through
    [parseFloat]: each property is a number, or [NaN] ([None]) when the
    property is missing or does not start with a number. *)
Record Bound := mkBound {
  left : option Q;
  top : option Q;
  right : option Q;
  bottom : option Q
}.

(** [a < b] and [a <= b] on such values: false when either is [NaN];
    [a > b] is [lt_nan b a] and [a >= b] is [le_nan b a]. *)
Definition lt_nan (a b : option Q) : bool :=
  match a, b with
  | Some a, Some b => ltb a b
  | _, _ => false
  end.

Definition le_nan (a b : option Q) : bool :=
  match a, b with
  | Some a, Some b => Qle_bool a b
  | _, _ => false
  end.

(** The fields [__t] and [__u] of the instance. *)
Record Params := mkParams { __t : Q; __u : Q }.



Definition compare (a b tol : Q) : bool :=
  if Qeq_bool a b then true
  else
    let ma := Qabs a in
    let mb := Qabs b in
    if ltb ma (1 # 1000000000) && ltb mb (1 # 1000000000)
       && ltb (1 # 10000000) tol
    then true
    else if ltb ma mb
         then Qle_bool (Qabs ((a - b) / b)) tol
         else Qle_bool (Qabs ((a - b) / a)) tol.

Definition insideBox (__x1 __y1 __left __top __right __bottom : Q) : bool :=
  let yDown := ltb __top __bottom in
  if yDown
  then ltb __left __x1 && ltb __x1 __right
       && ltb __top __y1 && ltb __y1 __bottom
  else ltb __left __x1 && ltb __x1 __right
       && ltb __y1 __top && ltb __bottom __y1.

(** [None] is [undefined]: the function ends without a [return]. *)
Definition boxesIntersect (__bound1 __bound2 : Bound) : option bool :=
  let bound1Left := left __bound1 in
  let bound1Right := right __bound1 in
  let bound1Top := top __bound1 in
  let bound1Bottom := bottom __bound1 in
  let bound2Left := left __bound2 in
  let bound2Right := right __bound2 in
  let bound2Top := top __bound2 in
  let bound2Bottom := bottom __bound2 in
  let l1 := bound1Left in
  let r1 := bound1Right in
  let t1 := if lt_nan bound1Bottom bound1Top then bound1Top else bound1Bottom in
  let b1 := if lt_nan bound1Bottom bound1Top then bound1Bottom else bound1Top in
  let l2 := bound2Left in
  let r2 := bound2Right in
  let t2 := if lt_nan bound2Bottom bound2Top then bound2Top else bound2Bottom in
  let b2 := if lt_nan bound2Bottom bound2Top then bound2Bottom else bound2Top in
  if lt_nan r1 l2 then Some false
  else if lt_nan r2 l1 then Some false
  else if lt_nan t2 b1 then Some false
  else if lt_nan t1 b2 then Some false
  else if le_nan l1 r2 && le_nan l2 r1
       then Some (le_nan b1 t2 && le_nan b2 t1)
       else None.

Definition pointOrientation (__x1 __y1 __x2 __y2 __x __y : Q) : DirEnum :=
  let test := (__x2 - __x1) * (__y - __y1) - (__x - __x1) * (__y2 - __y1) in
  if ltb (Qabs test) (1 # 10000) then ON
  else if ltb 0 test then LEFT else RIGHT.

Definition pointsEqual (__x1 __y1 __x2 __y2 : Q) : bool :=
  compare __x1 __x2 (1 # 1000) && compare __y1 __y2 (1 # 1000).

Definition linesIntersect (__x1 __y1 __x2 __y2 __x3 __y3 __x4 __y4 : Q) : bool :=
  if pointsEqual __x1 __y1 __x3 __y3 then true
  else if pointsEqual __x1 __y1 __x4 __y4 then true
  else if pointsEqual __x2 __y2 __x3 __y3 then true
  else if pointsEqual __x2 __y2 __x4 __y4 then true
  else
    let m1 := __x2 - __x1 in
    let m2 := __x4 - __x3 in
    let inf1 := ltb (Qabs m1) (1 # 100000000) in
    let inf2 := ltb (Qabs m2) (1 # 100000000) in
    let m1 := if inf1 then m1 else (__y2 - __y1) / m1 in
    let m2 := if inf2 then m2 else (__y4 - __y3) / m2 in
    if inf1 then negb inf2
    else if inf2 then true
    else negb (compare m1 m2 (1 # 1000)).

Definition __cross (p1x p1y p2x p2y : Q) : Q := p1x * p2y - p1y * p2x.

(** The method stores the parameters of the intersection in the fields
    [__t] and [__u] when the segments are neither co-linear nor parallel. *)
Definition segmentsIntersect (px py p2x p2y qx qy q2x q2y : Q) (this : Params)
  : bool * Params :=
  let rx := p2x - px in
  let ry := p2y - py in
  let sx := q2x - qx in
  let sy := q2y - qy in
  let tx := qx - px in
  let ty := qy - py in
  let num := __cross tx ty rx ry in
  let den := __cross rx ry sx sy in
  if ltb (Qabs num) (1 # 100000000) && ltb (Qabs den) (1 # 100000000)
  then
    if pointsEqual px py qx qy || pointsEqual px py q2x q2y
       || pointsEqual p2x p2y qx qy || pointsEqual p2x p2y q2x q2y
    then (true, this)
    else (xorb (ltb (qx - px) 0) (ltb (qx - p2x) 0)
          || xorb (ltb (qy - py) 0) (ltb (qy - p2y) 0), this)
  else if ltb (Qabs den) (1 # 100000000) then (false, this)
  else
    let u := num / den in
    let t := __cross tx ty sx sy / den in
    (Qle_bool 0 t && Qle_bool t 1 && Qle_bool 0 u && Qle_bool u 1,
     mkParams t u).


Definition isClockwise (_x0 _y0 _x1 _y1 _x2 _y2 : Q) : bool :=
  negb (ltb ((_y1 - _y0) * (_x2 - _x0)) ((_y2 - _y0) * (_x1 - _x0))).

Definition pointOnLine (rx ry px py qx qy : Q) : bool :=
  let det := (qx - px) * (ry - py) - (qy - py) * (rx - px) in
  ltb (Qabs det) (1 # 1000).

Definition triangleArea (x1 y1 x2 y2 x3 y3 : Q) : Q :=
  let a := x1 * (y2 - y3) + x2 * (y3 - y1) + x3 * (y1 - y2) in
  (1 # 2) * Qabs a.







(** A bounding box whose four properties are numbers. *)
Definition numeric (b : Bound) : Prop :=
  is_Some (left b) /\ is_Some (top b) /\ is_Some (right b) /\
  is_Some (bottom b).

(** Coordinates on which the arithmetic of the source, in IEEE doubles, is
    the exact arithmetic of these definitions: integers of magnitude at
    most 2^24.  Differences are then below 2^26, products of two
    differences or of a coordinate and a difference below 2^51, and sums
    or differences of two or three products below 2^53: all integers that
    a double holds exactly.  A quotient of two such integers is rounded,
    but is on the same side of 0 and of 1 as the exact quotient, and on
    the same side of 0.001 as the exact quotient is of 1/1000. *)
Definition pixel (q : Q) : bool :=
  (Qden q =? 1)%positive && (Z.abs (Qnum q) <=? 16777216)%Z.

Definition pixels (l : list Q) : Prop := forallb pixel l = true.

End Geom.

(** ** The closest-pair routine on IEEE doubles

    The same source, with the numbers of the source: IEEE binary64
    ([float]), rounding to nearest.  It serves to evaluate the routine on
    coordinates for which the exact arithmetic of the model above is not the
    arithmetic of the source (squares that overflow, sums that round).
    Only the state that [__closestPoint] changes is threaded: the array
    behind [pointsByY] and the three fields of the instance; [pointsByX] is
    only read.  A comparator is a consistent order unless a coordinate is
    NaN, so [sort] is the stable sort then. *)
Module Double.

Local Open Scope float_scope.

Record Point := mkPoint { x : float; y : float }.

Definition get (o : Point) (prop : PropName) : float :=
  match prop with prop_x => x o | prop_y => y o end.

(** [Number.MAX_VALUE]: the largest finite double. *)
Definition MAX_VALUE : float := 0x1.fffffffffffffp+1023.

(** [Math.min]: NaN if an argument is NaN, and [-0] is below [+0]. *)
Definition Math_min (a b : float) : float :=
  if is_nan a || is_nan b then nan
  else if a <? b then a
  else if b <? a then b
  else match classify a with NZero => a | _ => b end.

(** [Math.sqrt(dx*dx + dy*dy)] for [dx = b.x - a.x], [dy = b.y - a.y]. *)
Definition distance (a b : Point) : float :=
  let dx := x b - x a in
  let dy := y b - y a in
  sqrt (dx * dx + dy * dy).

Record This := mkThis {
  _best1 : option Point;
  _best2 : option Point;
  _bestDist : float
}.

(** The array behind [pointsByY] and the fields of the instance. *)
Record State := mkState {
  byY : list Point;
  this : This
}.

Definition M (A : Type) : Type := State -> Result (A * State).

Definition ret {A} (a : A) : M A := fun s => Done (a, s).

Definition bind {A B} (m : M A) (k : A -> M B) : M B :=
  fun s => match m s with
           | Done (a, s') => k a s'
           | Fault => Fault
           | OutOfFuel => OutOfFuel
           end.

Definition fault {A} : M A := fun _ => Fault.
Definition out_of_fuel {A} : M A := fun _ => OutOfFuel.

#[local, warnings="-notation-overridden"]
Notation "'let!' v ':=' m 'in' k" := (bind m (fun v => k))
  (at level 10, v name, m at level 100, k at level 200).
#[local, warnings="-notation-overridden"]
Notation "'exec!' m 'in' k" := (bind m (fun _ => k))
  (at level 10, m at level 100, k at level 200).

(** [o[..]] for a possibly undefined [o]: raises on [undefined]. *)
Definition deref (o : option Point) : M Point :=
  match o with Some q => ret q | None => fault end.

(** [pointsByY[i]]. *)
Definition byY_at (i : Z) : M (option Point) :=
  fun s => Done (index (byY s) i, s).

Definition get_bestDist : M float := fun s => Done (_bestDist (this s), s).

(** The three assignments to [_bestDist], [_best1] and [_best2]. *)
Definition set_best (d : float) (a b : Point) : M unit :=
  fun s => Done (tt, mkState (byY s) (mkThis (Some a) (Some b) d)).

Fixpoint comparator (sortProps : list PropName) (a b : Point) : Z :=
  match sortProps with
  | [] => 0%Z
  | prop :: props =>
      if (get a prop =? get b prop) && negb (length props =? 0)%nat
      then comparator props a b
      else if get a prop =? get b prop then 0%Z
           else if get b prop <? get a prop then 1%Z else (-1)%Z
  end.

Fixpoint insert_sorted (cmp : Point -> Point -> Z) (a : Point) (l : list Point)
  : list Point :=
  match l with
  | [] => [a]
  | b :: l' => if (cmp a b >? 0)%Z then b :: insert_sorted cmp a l'
               else a :: b :: l'
  end.

Fixpoint sorted_copy (cmp : Point -> Point -> Z) (l : list Point) : list Point :=
  match l with
  | [] => []
  | a :: l' => insert_sorted cmp a (sorted_copy cmp l')
  end.

(** [pointsByY.sort(..)]. *)
Definition sort_byY : M unit :=
  fun s => Done (tt, mkState (sorted_copy (comparator [prop_y]) (byY s)) (this s)).

(** The loop [for (i = from; i <= to; ++i)] that fills [tmp]. *)
Fixpoint strip_loop (count : nat) (median : option Point) (d : float) (i : Z)
    (tmp : list Point) : M (list Point) :=
  match count with
  | O => ret tmp
  | S count' =>
      let! o := byY_at i in
      let! q := deref o in
      let! m := deref median in
      if abs (x q - x m) <? d
      then strip_loop count' median d (i + 1)%Z (tmp ++ [q])
      else strip_loop count' median d (i + 1)%Z tmp
  end.

(** The body of the [while] loop for the pair [(tmp[i], tmp[j])]. *)
Definition examine (ti tj : Point) (d : float) : M float :=
  let dist := distance ti tj in
  if dist <? d
  then
    let! best := get_bestDist in
    exec! (if dist <? best then set_best dist ti tj else ret tt) in
    ret dist
  else ret d.

(** The [while] loop: [rest] is [tmp[j .. m-1]]. *)
Fixpoint scan_from (ti : Point) (rest : list Point) (d : float) : M float :=
  match rest with
  | [] => ret d
  | tj :: rest' =>
      if y tj - y ti <? d
      then let! d' := examine ti tj d in scan_from ti rest' d'
      else ret d
  end.

(** The loop [for (i = 0; i < m; ++i)]: [tmp] is [tmp[i .. m-1]]. *)
Fixpoint scan (tmp : list Point) (d : float) : M float :=
  match tmp with
  | [] => ret d
  | ti :: rest => let! d' := scan_from ti rest d in scan rest d'
  end.

Fixpoint __closestPoint (fuel : nat) (pointsByX : list Point) (from to : Z)
  : M float :=
  match fuel with
  | O => out_of_fuel
  | S fuel' =>
      if (to <=? from)%Z then ret MAX_VALUE
      else
        let mid := (from + (to - from) / 2)%Z in
        let median := index pointsByX mid in
        let! left := __closestPoint fuel' pointsByX from mid in
        let! right := __closestPoint fuel' pointsByX (mid + 1)%Z to in
        let d := Math_min left right in
        exec! sort_byY in
        let! tmp := strip_loop (Z.to_nat (to - from + 1)) median d from [] in
        scan tmp d
  end.

(** The array [p] filled by the loop over [i]. *)
Definition points_of (xs ys : list float) : list Point := zip_with mkPoint xs ys.

(** The block [if (n == 3) { .. }], on the x-sorted array [p]. *)
Definition closest_of_three (p : list Point) (t : This)
  : Result (list (option Point) * This) :=
  match p with
  | p0 :: p1 :: p2 :: _ =>
      let t' := mkThis (_best1 t) (_best2 t) (distance p0 p1) in
      let d := distance p1 p2 in
      if d <? _bestDist t' then Done ([Some p1; Some p2], t')
      else Done ([Some p0; Some p1], t')
  | _ => Fault
  end.

(** The last block of [closestPoints], on the x-sorted array [p]. *)
Definition closest_of_many (p : list Point) (t : This)
  : Result (list (option Point) * This) :=
  let n := Z.of_nat (length p) in
  match __closestPoint (Z.to_nat n) p 0 (n - 1) (mkState p t) with
  | Done (_, s') => Done ([_best1 (this s'); _best2 (this s')], this s')
  | Fault => Fault
  | OutOfFuel => OutOfFuel
  end.

(** [None] is a null or absent argument; the result comes with the fields
    of the instance after the call. *)
Definition closestPoints (_xcoord _ycoord : option (list float)) (t : This)
  : Result (list (option Point) * This) :=
  match _xcoord, _ycoord with
  | Some xs, Some ys =>
      let xlen := Z.of_nat (length xs) in
      let ylen := Z.of_nat (length ys) in
      if ((xlen =? 0) || (ylen =? 0))%Z then Done ([], t)
      else if negb (xlen =? ylen)%Z then Done ([], t)
      else
        let n := xlen in
        if (n =? 0)%Z then Done ([], t)
        else if (n =? 1)%Z then
          match xs, ys with
          | x0 :: _, y0 :: _ =>
              Done ([Some (mkPoint x0 y0); Some (mkPoint x0 y0)], t)
          | _, _ => Fault
          end
        else
          (* the array [points] of the block [if (n == 2)] is not used *)
          let p := sorted_copy (comparator [prop_x]) (points_of xs ys) in
          let t0 := mkThis None None MAX_VALUE in
          if (n =? 3)%Z then closest_of_three p t0
          else closest_of_many p t0
  | _, _ => Done ([], t)
  end.

Definition fresh_this : This := mkThis None None MAX_VALUE.

(** The call on two arrays in a fresh instance: the result alone. *)
Definition run (xs ys : list float) : Result (list (option Point)) :=
  match closestPoints (Some xs) (Some ys) fresh_this with
  | Done (res, _) => Done res
  | Fault => Fault
  | OutOfFuel => OutOfFuel
  end.

(** An integer as a double: exact below 2^53 in magnitude. *)
Definition of_int (z : Z) : float :=
  if (z <? 0)%Z then - of_uint63 (Uint63.of_Z (- z))
  else of_uint63 (Uint63.of_Z z).

End Double.

(** ** Notions used by the statements *)

(** The points defined by two coordinate arrays, paired by index. *)
Definition points_of (xs ys : list Z) : list Point := zip_with mkPoint xs ys.

(** [a <= b] on distances. *)
Definition num_le (a b : num) : Prop := num_ltb b a = false.

(** The brute-force reference of the specification: the minimum of the
    distance over all pairs of (distinct positions of) a list of points. *)
Fixpoint min_distance_from (a : Point) (l : list Point) : num :=
  match l with
  | [] => MAX_VALUE
  | b :: l' => Math_min (distance a b) (min_distance_from a l')
  end.

Fixpoint brute_force (pts : list Point) : num :=
  match pts with
  | [] => MAX_VALUE
  | a :: l => Math_min (min_distance_from a l) (brute_force l)
  end.

(** [a] and [b] are two of the points [pts], at different positions. *)
Definition two_of (pts : list Point) (a b : Point) : Prop :=
  exists l, l ≡ₚ pts /\ [a; b] `sublist_of` l.

(** The running best of a history: the value recorded last. *)
Definition best_of (h : list (Point * Point * num)) : num :=
  match h with
  | [] => MAX_VALUE
  | (_, _, best) :: _ => best
  end.

(** The minimum distance among the pairs of a history. *)
Fixpoint min_examined (h : list (Point * Point * num)) : num :=
  match h with
  | [] => MAX_VALUE
  | (a, b, _) :: older => Math_min (distance a b) (min_examined older)
  end.

(** At every step of the history the running best is the minimum distance
    among the pairs examined up to that step. *)
Fixpoint tracks_minimum (h : list (Point * Point * num)) : Prop :=
  match h with
  | [] => True
  | (a, b, best) :: older =>
      best = min_examined ((a, b, best) :: older) /\ tracks_minimum older
  end.

(** The running best never increases along the history. *)
Fixpoint never_increases (h : list (Point * Point * num)) : Prop :=
  match h with
  | [] => True
  | (_, _, best) :: older => num_le best (best_of older) /\ never_increases older
  end.

(** The running best is unset, or it is the distance of the recorded pair,
    which satisfies [G]. *)
Definition best_recorded (G : Point -> Point -> Prop) (t : This) : Prop :=
  _bestDist t = MAX_VALUE \/
  exists a b, _best1 t = Some a /\ _best2 t = Some b /\
              _bestDist t = distance a b /\ G a b.

(** What holds of the state between two examinations. *)
Definition Inv (G : Point -> Point -> Prop) (s : State) : Prop :=
  best_recorded G (this s) /\
  _bestDist (this s) = best_of (examined s) /\
  tracks_minimum (examined s) /\
  never_increases (examined s).

(** What the scan of one activation guarantees: the heap is untouched, the
    invariant is kept, the running best has not increased and is at most
    the local minimum [d'], which has not increased either. *)
Definition scanned (G : Point -> Point -> Prop)
    (d : num) (s : State) (d' : num) (s' : State) : Prop :=
  heap s' = heap s /\ Inv G s' /\
  num_le (_bestDist (this s')) (_bestDist (this s)) /\
  num_le (_bestDist (this s')) d' /\ num_le d' d.

(** A run ends: it returns or raises. *)
Definition terminates {A} (r : Result A) : Prop := r <> OutOfFuel.


(** The inputs for which the specification asks an empty result: a null
    argument, an empty array, or arrays of different lengths. *)
Definition no_points (a b : option (list Z)) : Prop :=
  match a, b with
  | Some xs, Some ys =>
      length xs = 0%nat \/ length ys = 0%nat \/ length xs <> length ys
  | _, _ => True
  end.

(** The coordinates on which the arithmetic of the model is the arithmetic
    of the source: integers of magnitude at most 2^23. *)
Definition in_range (l : list Z) : Prop :=
  forallb (fun c => (-8388608 <=? c) && (c <=? 8388608)) l = true.

Definition points_in_range (l : list Point) : Prop :=
  in_range (map x l ++ map y l).


(** The square of the Euclidean distance of two points. *)
Definition sq_distance (a b : Point) : Z :=
  (x a - x b) * (x a - x b) + (y a - y b) * (y a - y b).

(** [|d - 1| < 0.001], on the squares. *)
Definition within_1e3_of_one (d : num) : Prop :=
  match d with
  | MAX_VALUE => False
  | Math_sqrt s => 998001 < 1000000 * s < 1002001
  end.

(** The point cloud of the test suite. *)
Definition fixture_xs : list Z :=
  [-2; 1; 2; 0; -8; -7; -8; 5; 1; 1; -2; 5; 4; 3; -5; 8; 4; 2; 1; 0].
Definition fixture_ys : list Z :=
  [0; 3; 4; -2; -3; 4; 2; 0; 1; 2; -2; -1; 4; 0; 2; -2; 3; -3; -2; 1].


(** The test of the strip: [q] is within [d] of the median in x. *)
Definition in_strip (median : Point) (d : num) (q : Point) : bool :=
  Z_ltb_num (Z.abs (x q - x median)) d.

(** ** The order on distances *)

Arguments distance : simpl never.

Lemma num_ltb_irrefl a : num_ltb a a = false.
Proof. destruct a; simpl; [done | apply Z.ltb_irrefl]. Qed.

Lemma num_ltb_trans a b c :
  num_ltb a b = true -> num_ltb b c = true -> num_ltb a c = true.
Proof. destruct a, b, c; simpl; try done; lia. Qed.

Lemma num_ltb_total a b :
  num_ltb a b = false -> num_ltb b a = false -> a = b.
Proof. destruct a, b; simpl; try done. intros. f_equal. lia. Qed.

Lemma num_ltb_asym a b : num_ltb a b = true -> num_ltb b a = false.
Proof. destruct a, b; simpl; try done. lia. Qed.

Lemma num_ltb_MAX a : num_ltb a MAX_VALUE = true <-> a <> MAX_VALUE.
Proof. destruct a; simpl; split; congruence. Qed.

Lemma num_le_refl a : num_le a a.
Proof. apply num_ltb_irrefl. Qed.

Lemma num_le_trans a b c : num_le a b -> num_le b c -> num_le a c.
Proof. unfold num_le. destruct a, b, c; simpl; try done. lia. Qed.


Lemma num_lt_le a b : num_ltb a b = true -> num_le a b.
Proof. apply num_ltb_asym. Qed.

Lemma num_le_not_MAX a b : num_le a b -> b <> MAX_VALUE -> a <> MAX_VALUE.
Proof. unfold num_le. destruct a, b; simpl; congruence. Qed.

Lemma Math_min_le_l a b : num_le (Math_min a b) a.
Proof.
  unfold Math_min, num_le. destruct (num_ltb b a) eqn:E.
  - by apply num_ltb_asym.
  - apply num_ltb_irrefl.
Qed.

Lemma Math_min_le_r a b : num_le (Math_min a b) b.
Proof.
  unfold Math_min, num_le. destruct (num_ltb b a) eqn:E.
  - apply num_ltb_irrefl.
  - done.
Qed.

Lemma Math_min_glb a b c : num_le c a -> num_le c b -> num_le c (Math_min a b).
Proof. unfold Math_min. by destruct (num_ltb b a). Qed.

Lemma Math_min_absorb a b : num_le b a -> Math_min a b = b.
Proof.
  unfold Math_min, num_le. intros H. destruct (num_ltb b a) eqn:E; [done|].
  by apply num_ltb_total.
Qed.

Lemma Math_min_keep a b : num_ltb a b = true -> Math_min a b = a.
Proof. unfold Math_min. intros H. by rewrite (num_ltb_asym _ _ H). Qed.

Lemma distance_not_MAX a b : distance a b <> MAX_VALUE.
Proof. done. Qed.

Lemma distance_sq a b : distance a b = Math_sqrt (sq_distance a b).
Proof. unfold distance, sq_distance. cbv zeta. f_equal. lia. Qed.

Lemma distance_sym a b : distance a b = distance b a.
Proof. unfold distance. f_equal. lia. Qed.

Lemma Z_ltb_num_MAX a : Z_ltb_num a MAX_VALUE = true.
Proof. done. Qed.

(** ** The stable sort *)

Lemma insert_sorted_Permutation cmp a l : insert_sorted cmp a l ≡ₚ a :: l.
Proof.
  induction l as [|b l IH]; simpl; [done|].
  destruct (cmp a b >? 0); [|done].
  rewrite IH. apply Permutation_swap.
Qed.

Lemma sorted_copy_Permutation cmp l : sorted_copy cmp l ≡ₚ l.
Proof.
  induction l as [|a l IH]; simpl; [done|].
  by rewrite insert_sorted_Permutation, IH.
Qed.

Lemma sorted_copy_length cmp l : length (sorted_copy cmp l) = length l.
Proof. by rewrite (sorted_copy_Permutation cmp l). Qed.




(** ** The steps of the monad *)

Lemma bind_Done {A B} (m : M A) (k : A -> M B) s a s' :
  m s = Done (a, s') -> bind m k s = k a s'.
Proof. unfold bind. by intros ->. Qed.

Lemma index_Some {A} (l : list A) i q :
  index l i = Some q <-> 0 <= i /\ l !! Z.to_nat i = Some q.
Proof.
  unfold index. destruct (i <? 0) eqn:E.
  - split; [done | lia].
  - split; [intros; split; [lia | done] | by intros [_ ?]].
Qed.

Lemma index_in_range {A} (l : list A) i :
  0 <= i -> i < Z.of_nat (length l) -> is_Some (index l i).
Proof.
  intros H0 H1. destruct (lookup_lt_is_Some_2 l (Z.to_nat i)) as [q Hq]; [lia|].
  exists q. by apply index_Some.
Qed.

Lemma objs_Done r l s :
  heap s !! r = Some (ObjArray l) -> objs r s = Done (l, s).
Proof. intros H. unfold objs, bind, read_array. by rewrite H. Qed.

Lemma nums_Done r l s :
  heap s !! r = Some (NumArray l) -> nums r s = Done (l, s).
Proof. intros H. unfold nums, bind, read_array. by rewrite H. Qed.

Lemma obj_at_Done r l i s :
  heap s !! r = Some (ObjArray l) -> obj_at r i s = Done (index l i, s).
Proof. intros H. unfold obj_at. by rewrite (bind_Done _ _ _ _ _ (objs_Done _ _ _ H)). Qed.

Lemma num_at_Done r l i v s :
  heap s !! r = Some (NumArray l) -> index l i = Some v ->
  num_at r i s = Done (v, s).
Proof.
  intros H Hi. unfold num_at.
  rewrite (bind_Done _ _ _ _ _ (nums_Done _ _ _ H)). by rewrite Hi.
Qed.

Lemma num_length_Done r l s :
  heap s !! r = Some (NumArray l) ->
  num_length r s = Done (Z.of_nat (length l), s).
Proof.
  intros H. unfold num_length. by rewrite (bind_Done _ _ _ _ _ (nums_Done _ _ _ H)).
Qed.

Lemma sort_Done r cmp l s :
  heap s !! r = Some (ObjArray l) ->
  sort r cmp s =
  Done (tt, mkState (<[r := ObjArray (sorted_copy cmp l)]> (heap s))
              (this s) (examined s)).
Proof. intros H. unfold sort. by rewrite (bind_Done _ _ _ _ _ (objs_Done _ _ _ H)). Qed.

Lemma push_Done r o l s :
  heap s !! r = Some (ObjArray l) ->
  push r o s =
  Done (tt, mkState (<[r := ObjArray (l ++ [o])]> (heap s)) (this s) (examined s)).
Proof. intros H. unfold push. by rewrite (bind_Done _ _ _ _ _ (objs_Done _ _ _ H)). Qed.

Lemma slice_Done r l s :
  heap s !! r = Some (ObjArray l) ->
  slice r s =
  Done (length (heap s),
        mkState (heap s ++ [ObjArray l]) (this s) (examined s)).
Proof. intros H. unfold slice. by rewrite (bind_Done _ _ _ _ _ (objs_Done _ _ _ H)). Qed.

(** ** The loops *)

(** The strip: the loop reads the [count] positions from [i] on and keeps,
    in order, the points that pass the test. *)
Lemma strip_loop_Done count : forall pointsByY m d i tmp l s,
  heap s !! pointsByY = Some (ObjArray l) ->
  0 <= i -> i + Z.of_nat count <= Z.of_nat (length l) ->
  strip_loop count pointsByY (Some m) d i tmp s =
  Done (tmp ++ List.filter (in_strip m d) (take count (drop (Z.to_nat i) l)), s).
Proof.
  induction count as [|count IH]; intros ry m d i tmp l s Hl Hi Hc.
  - cbn [strip_loop]. by rewrite take_0, app_nil_r.
  - destruct (index_in_range l i) as [q Hq]; [lia..|].
    simpl. rewrite (bind_Done _ _ _ _ _ (obj_at_Done _ _ i _ Hl)).
    rewrite Hq. simpl. unfold bind at 1. simpl. unfold bind at 1. simpl.
    apply index_Some in Hq as [_ Hq].
    rewrite (drop_S _ _ _ Hq). cbn [take List.filter]. unfold in_strip at 1.
    replace (S (Z.to_nat i)) with (Z.to_nat (i + 1)) by lia.
    destruct (Z_ltb_num (Z.abs (x q - x m)) d) eqn:E.
    + rewrite (IH ry m d (i + 1) (tmp ++ [q]) l s Hl) by lia.
      by rewrite <- app_assoc.
    + by rewrite (IH ry m d (i + 1) tmp l s Hl) by lia.
Qed.

Lemma filter_sublist {A} (f : A -> bool) l : List.filter f l `sublist_of` l.
Proof.
  induction l as [|a l IH]; simpl; [done|].
  destruct (f a); by constructor.
Qed.

Lemma in_strip_MAX m l : List.filter (in_strip m MAX_VALUE) l = l.
Proof. induction l as [|a l IH]; simpl; [done|]. by rewrite IH. Qed.

Lemma best_of_min_examined h : tracks_minimum h -> best_of h = min_examined h.
Proof. destruct h as [|[[a b] best] older]; [done|]. by intros [? _]. Qed.

Section Scanning.

Variable G : Point -> Point -> Prop.

Lemma scanned_refl d s :
  Inv G s -> num_le (_bestDist (this s)) d -> scanned G d s d s.
Proof. intros. unfold scanned. split_and!; try done; apply num_le_refl. Qed.

Lemma scanned_trans d s d1 s1 d2 s2 :
  scanned G d s d1 s1 -> scanned G d1 s1 d2 s2 -> scanned G d s d2 s2.
Proof.
  intros (Hh1 & HI1 & Hb1 & Hd1 & Hle1) (Hh2 & HI2 & Hb2 & Hd2 & Hle2).
  unfold scanned. split_and!; [congruence|done| |done| ].
  - by apply (num_le_trans _ (_bestDist (this s1))).
  - by apply (num_le_trans _ d1).
Qed.

Lemma examine_Done ti tj d s :
  Inv G s -> num_le (_bestDist (this s)) d -> G ti tj ->
  exists s',
    examine ti tj d s = Done (Math_min d (distance ti tj), s') /\
    scanned G d s (Math_min d (distance ti tj)) s'.
Proof.
  intros (Hb & He & Ht & Hn) Hd HG.
  pose proof (best_of_min_examined _ Ht) as Hm.
  unfold examine, Math_min, bind, get_bestDist, set_bestDist, set_best1,
    set_best2, note, ret, scanned, Inv.
  destruct (num_ltb (distance ti tj) d) eqn:E1; cbv beta iota zeta.
  - destruct (num_ltb (distance ti tj) (_bestDist (this s))) eqn:E2;
      cbv beta iota zeta; eexists; (split; [reflexivity|]);
      cbn [heap this examined _bestDist _best1 _best2
           tracks_minimum never_increases min_examined best_of].
    + split; [done|].
      split; [|split_and!; [by apply num_lt_le|apply num_le_refl|by apply num_lt_le]].
      split; [right; by exists ti, tj|]. split; [done|].
      split; [split; [|done]|split; [|done]].
      * rewrite <- Hm, <- He. symmetry. by apply Math_min_keep.
      * rewrite <- He. by apply num_lt_le.
    + split; [done|].
      split; [|split_and!; [apply num_le_refl|done|by apply num_lt_le]].
      split; [done|]. split; [done|].
      split; [split; [|done]|split; [|done]].
      * rewrite <- Hm, <- He. symmetry. by apply Math_min_absorb.
      * rewrite <- He. apply num_le_refl.
  - eexists; (split; [reflexivity|]).
    cbn [heap this examined _bestDist _best1 _best2
         tracks_minimum never_increases min_examined best_of].
    split; [done|]. split; [|split_and!; [apply num_le_refl|done|apply num_le_refl]].
    split; [done|]. split; [done|].
    split; [split; [|done]|split; [|done]].
    + rewrite <- Hm, <- He. symmetry. apply Math_min_absorb.
      by apply (num_le_trans _ d).
    + rewrite <- He. apply num_le_refl.
Qed.

Lemma scan_from_Done ti rest : forall d s,
  Inv G s -> num_le (_bestDist (this s)) d ->
  (forall tj, tj ∈ rest -> G ti tj) ->
  exists d' s',
    scan_from ti rest d s = Done (d', s') /\
    scanned G d s d' s' /\
    (rest <> [] -> d' <> MAX_VALUE).
Proof.
  induction rest as [|tj rest IH]; intros d s HI Hd HG.
  - exists d, s. split_and!; try done. by apply scanned_refl.
  - simpl. destruct (Z_ltb_num (y tj - y ti) d) eqn:E.
    + destruct (examine_Done ti tj d s HI Hd) as (s1 & H1 & Hs1).
      { apply HG. left. }
      rewrite (bind_Done _ _ _ _ _ H1).
      destruct (IH (Math_min d (distance ti tj)) s1)
        as (d' & s' & H2 & Hs2 & _).
      { apply Hs1. }
      { apply Hs1. }
      { intros. apply HG. by right. }
      exists d', s'. split; [done|]. split; [by eapply scanned_trans|].
      intros _. eapply num_le_not_MAX; [apply Hs2|].
      eapply num_le_not_MAX; [apply Math_min_le_r | apply distance_not_MAX].
    + exists d, s. split_and!; try done; [by apply scanned_refl|].
      intros _ ->. by rewrite Z_ltb_num_MAX in E.
Qed.

Lemma scan_Done tmp : forall d s,
  Inv G s -> num_le (_bestDist (this s)) d ->
  (forall a b, [a; b] `sublist_of` tmp -> G a b) ->
  exists d' s',
    scan tmp d s = Done (d', s') /\
    scanned G d s d' s' /\
    ((2 <= length tmp)%nat -> d' <> MAX_VALUE).
Proof.
  induction tmp as [|ti rest IH]; intros d s HI Hd HG.
  - exists d, s. split_and!; try done; [by apply scanned_refl|]. simpl. lia.
  - simpl.
    destruct (scan_from_Done ti rest d s HI Hd) as (d1 & s1 & H1 & Hs1 & Hne1).
    { intros tj Hin. apply HG. apply sublist_skip.
      by apply singleton_sublist_l. }
    rewrite (bind_Done _ _ _ _ _ H1).
    destruct (IH d1 s1) as (d' & s' & H2 & Hs2 & _).
    { apply Hs1. }
    { apply Hs1. }
    { intros a b Hab. apply HG. by apply sublist_cons. }
    exists d', s'. split; [done|]. split; [by eapply scanned_trans|].
    intros Hlen. eapply num_le_not_MAX; [apply Hs2|]. apply Hne1.
    destruct rest; simpl in *; [lia | done].
Qed.

End Scanning.

(** ** The recursion *)

(** The split index lies in the range: both recursive calls are on
    strictly shorter ranges. *)
Lemma mid_bounds from to :
  from < to -> from <= from + (to - from) / 2 /\ from + (to - from) / 2 < to.
Proof.
  intros H. pose proof (Z.div_mod (to - from) 2 ltac:(lia)).
  pose proof (Z.mod_pos_bound (to - from) 2 ltac:(lia)). lia.
Qed.

(** On a range within the arrays the helper returns, with the array of
    [pointsByY] permuted and nothing else of the heap changed, the running
    best recorded and at most the returned distance, and a distance found
    whenever the range holds two positions. *)
Lemma closestPoint_Done pts fuel : forall rx ry from to pX pY s,
  heap s !! rx = Some (ObjArray pX) ->
  heap s !! ry = Some (ObjArray pY) ->
  rx <> ry ->
  pY ≡ₚ pts -> length pX = length pts ->
  0 <= from -> to < Z.of_nat (length pts) ->
  (Z.to_nat (to - from) < fuel)%nat ->
  Inv (two_of pts) s ->
  exists d s' pY',
    __closestPoint fuel rx ry from to s = Done (d, s') /\
    heap s' = <[ry := ObjArray pY']> (heap s) /\ pY' ≡ₚ pts /\
    Inv (two_of pts) s' /\
    num_le (_bestDist (this s')) (_bestDist (this s)) /\
    num_le (_bestDist (this s')) d /\
    (from < to -> d <> MAX_VALUE).
Proof.
  induction fuel as [|fuel IH]; intros rx ry from to pX pY s Hx Hy Hne Hp Hlen
    Hfrom Hto Hfuel HI; [lia|].
  simpl. destruct (to <=? from) eqn:Hcmp.
  - exists MAX_VALUE, s, pY. split_and!; try done.
    + by rewrite list_insert_id.
    + apply num_le_refl.
    + lia.
  - apply Z.leb_gt in Hcmp. destruct (mid_bounds _ _ Hcmp) as [Hm1 Hm2].
    set (mid := from + (to - from) / 2) in *.
    assert (Hry : (ry < length (heap s))%nat) by (by eapply lookup_lt_Some).
    assert (Hlen' : length pY = length pts) by (by rewrite Hp).
    rewrite (bind_Done _ _ _ _ _ (obj_at_Done _ _ mid _ Hx)).
    destruct (index_in_range pX mid) as [m Hm]; [lia..|]. rewrite Hm.
    (* the call on [from, mid] *)
    destruct (IH rx ry from mid pX pY s)
      as (d1 & s1 & pY1 & H1 & Hh1 & Hp1 & HI1 & Hb1 & Hd1 & _);
      try done; [lia..|].
    rewrite (bind_Done _ _ _ _ _ H1).
    assert (Hx1 : heap s1 !! rx = Some (ObjArray pX)).
    { by rewrite Hh1, list_lookup_insert_ne. }
    assert (Hy1 : heap s1 !! ry = Some (ObjArray pY1)).
    { by rewrite Hh1, list_lookup_insert_eq. }
    (* the call on [mid+1, to] *)
    destruct (IH rx ry (mid + 1) to pX pY1 s1)
      as (d2 & s2 & pY2 & H2 & Hh2 & Hp2 & HI2 & Hb2 & Hd2 & _);
      try done; [lia..|].
    rewrite (bind_Done _ _ _ _ _ H2).
    assert (Hy2 : heap s2 !! ry = Some (ObjArray pY2)).
    { rewrite Hh2, list_lookup_insert_eq; [done|]. by rewrite Hh1, length_insert. }
    assert (Hd : num_le (_bestDist (this s2)) (Math_min d1 d2)).
    { apply Math_min_glb; [|done].
      by apply (num_le_trans _ (_bestDist (this s1))). }
    (* the sort *)
    rewrite (bind_Done _ _ _ _ _ (sort_Done _ (comparator [prop_y]) _ _ Hy2)).
    set (pY3 := sorted_copy (comparator [prop_y]) pY2).
    set (s3 := mkState (<[ry:=ObjArray pY3]> (heap s2)) (this s2) (examined s2)).
    assert (Hp3 : pY3 ≡ₚ pts).
    { unfold pY3. by rewrite sorted_copy_Permutation. }
    assert (Hy3 : heap s3 !! ry = Some (ObjArray pY3)).
    { simpl. rewrite list_lookup_insert_eq; [done|].
      by rewrite Hh2, length_insert, Hh1, length_insert. }
    (* the strip *)
    rewrite (bind_Done _ _ _ _ _
               (strip_loop_Done (Z.to_nat (to - from + 1)) ry m (Math_min d1 d2)
                  from [] pY3 s3 Hy3 Hfrom ltac:(rewrite Hp3; lia))).
    cbn [app].
    set (tmp := List.filter _ _).
    assert (Hsub : tmp `sublist_of` take (Z.to_nat (to - from + 1))
                                      (drop (Z.to_nat from) pY3))
      by apply filter_sublist.
    assert (Hall : Math_min d1 d2 = MAX_VALUE ->
                   length tmp = Z.to_nat (to - from + 1)).
    { intros Emin. unfold tmp. rewrite Emin, in_strip_MAX.
      rewrite length_take, length_drop, Hp3. lia. }
    (* the scan *)
    destruct (scan_Done (two_of pts) tmp (Math_min d1 d2) s3)
      as (d' & s' & H4 & (Hh4 & HI4 & Hb4 & Hd4 & Hle4) & Hne4);
      try done.
    { intros a b Hab. exists pY3. split; [done|].
      etrans; [exact Hab|]. etrans; [exact Hsub|].
      etrans; [apply sublist_take | apply sublist_drop]. }
    exists d', s', pY3. split; [done|]. split_and!; try done.
    + rewrite Hh4. simpl. by rewrite Hh2, Hh1, !list_insert_insert_eq.
    + apply (num_le_trans _ _ _ Hb4). simpl.
      by apply (num_le_trans _ (_bestDist (this s1))).
    + intros _. destruct (Math_min d1 d2) eqn:Emin.
      * apply Hne4. rewrite Hall; [lia | done].
      * by eapply num_le_not_MAX.
Qed.

(** ** [closestPoints] *)

Lemma State_eta s : mkState (heap s) (this s) (examined s) = s.
Proof. by destruct s. Qed.

Lemma insert_last (h : list JSArray) a b : <[length h := a]> (h ++ [b]) = h ++ [a].
Proof.
  rewrite insert_app_r_alt by lia. by replace (length h - length h)%nat with 0%nat by lia.
Qed.

Lemma points_of_lookup xs ys i xi yi :
  xs !! i = Some xi -> ys !! i = Some yi ->
  points_of xs ys !! i = Some (mkPoint xi yi).
Proof. intros Hx Hy. unfold points_of. by rewrite lookup_zip_with, Hx, Hy. Qed.

Lemma points_of_length xs ys :
  length xs = length ys -> length (points_of xs ys) = length xs.
Proof. intros. unfold points_of. by apply length_zip_with_l_eq. Qed.

(** The loop that builds [p] appends the points of the positions it runs
    over, and touches no other array. *)
Lemma fill_loop_Done count : forall p xr yr i xs ys acc s,
  heap s !! xr = Some (NumArray xs) ->
  heap s !! yr = Some (NumArray ys) ->
  heap s !! p = Some (ObjArray acc) ->
  0 <= i ->
  i + Z.of_nat count <= Z.of_nat (length xs) ->
  i + Z.of_nat count <= Z.of_nat (length ys) ->
  fill_loop count p xr yr i s =
  Done (tt, mkState
              (<[p := ObjArray (acc ++ take count (drop (Z.to_nat i) (points_of xs ys)))]>
                 (heap s))
              (this s) (examined s)).
Proof.
  induction count as [|count IH]; intros p xr yr i xs ys acc s Hx Hy Hp Hi Hcx Hcy.
  - simpl. rewrite take_0, app_nil_r, list_insert_id by done. by rewrite State_eta.
  - destruct (index_in_range xs i) as [xi Hxi]; [lia..|].
    destruct (index_in_range ys i) as [yi Hyi]; [lia..|].
    simpl.
    rewrite (bind_Done _ _ _ _ _ (num_at_Done _ _ _ _ _ Hx Hxi)).
    rewrite (bind_Done _ _ _ _ _ (num_at_Done _ _ _ _ _ Hy Hyi)).
    rewrite (bind_Done _ _ _ _ _ (push_Done _ (mkPoint xi yi) _ _ Hp)).
    assert (Hlt : (p < length (heap s))%nat) by (by eapply lookup_lt_Some).
    assert (p <> xr) by congruence. assert (p <> yr) by congruence.
    set (s1 := mkState _ _ _).
    assert (Hx1 : heap s1 !! xr = Some (NumArray xs))
      by (simpl; by rewrite list_lookup_insert_ne).
    assert (Hy1 : heap s1 !! yr = Some (NumArray ys))
      by (simpl; by rewrite list_lookup_insert_ne).
    assert (Hp1 : heap s1 !! p = Some (ObjArray (acc ++ [mkPoint xi yi])))
      by (simpl; by rewrite list_lookup_insert_eq).
    rewrite (IH p xr yr (i + 1) xs ys _ s1 Hx1 Hy1 Hp1) by lia.
    simpl. rewrite list_insert_insert_eq.
    apply index_Some in Hxi as [_ Hxi]. apply index_Some in Hyi as [_ Hyi].
    rewrite (drop_S _ _ _ (points_of_lookup _ _ _ _ _ Hxi Hyi)). simpl.
    rewrite <- app_assoc. simpl.
    by replace (Z.to_nat (i + 1)) with (S (Z.to_nat i)) by lia.
Qed.

Lemma step_Done {A B} (m : M A) (k : A -> M B) s a s' r :
  m s = Done (a, s') -> k a s' = r -> bind m k s = r.
Proof. intros H <-. by apply bind_Done. Qed.

(** With two points or more, [closestPoints] builds the x-sorted array [p]
    as a new array, resets the running best and runs one of its two last
    blocks. *)
Lemma closestPoints_prefix xr yr xs ys s :
  heap s !! xr = Some (NumArray xs) ->
  heap s !! yr = Some (NumArray ys) ->
  length xs = length ys -> (2 <= length xs)%nat ->
  closestPoints (Some xr) (Some yr) s =
  (if Z.of_nat (length xs) =? 3
   then closest_of_three (length (heap s))
   else closest_of_many (length (heap s)) (Z.of_nat (length xs)))
    (mkState
       (heap s ++ [ObjArray (sorted_copy (comparator [prop_x]) (points_of xs ys))])
       (mkThis None None MAX_VALUE) []).
Proof.
  intros Hx Hy Hlen Hn.
  unfold closestPoints.
  eapply step_Done; [by apply num_length_Done|].
  eapply step_Done; [by apply num_length_Done|].
  replace (Z.of_nat (length xs) =? 0) with false by (symmetry; apply Z.eqb_neq; lia).
  replace (Z.of_nat (length ys) =? 0) with false by (symmetry; apply Z.eqb_neq; lia).
  rewrite Hlen, Z.eqb_refl. rewrite <- Hlen. cbn [orb negb].
  replace (Z.of_nat (length xs) =? 1) with false by (symmetry; apply Z.eqb_neq; lia).
  match goal with |- bind ?m _ _ = _ =>
    assert (exists points, m s = Done (points, s)) as [points Hpoints] end.
  { destruct (Z.of_nat (length xs) =? 2); [|by eexists].
    destruct xs as [|x0 [|x1 xs]]; simpl in Hn; try lia.
    destruct ys as [|y0 [|y1 ys]]; simpl in Hlen; try lia.
    eexists.
    eapply step_Done; [by eapply num_at_Done|].
    eapply step_Done; [by eapply num_at_Done|].
    eapply step_Done; [by eapply num_at_Done|].
    eapply step_Done; [by eapply num_at_Done|]. reflexivity. }
  eapply step_Done; [exact Hpoints|].
  eapply step_Done; [reflexivity|].
  set (s1 := mkState _ _ _).
  assert (Hx1 : heap s1 !! xr = Some (NumArray xs)) by (by apply lookup_app_l_Some).
  assert (Hy1 : heap s1 !! yr = Some (NumArray ys)) by (by apply lookup_app_l_Some).
  assert (Hp1 : heap s1 !! length (heap s) = Some (ObjArray []))
    by (by apply list_lookup_middle).
  eapply step_Done.
  { apply (fill_loop_Done _ _ _ _ _ xs ys [] s1 Hx1 Hy1 Hp1); lia. }
  simpl. rewrite Nat2Z.id, drop_0, insert_last.
  rewrite take_ge by (rewrite points_of_length; [lia|done]).
  eapply step_Done.
  { apply sort_Done. simpl. by apply list_lookup_middle. }
  simpl. rewrite insert_last. reflexivity.
Qed.

(** The block for three points compares the two pairs adjacent in [p] and
    nothing else; it leaves the first distance in [_bestDist]. *)
Lemma closest_of_three_Done p p0 p1 p2 s :
  heap s !! p = Some (ObjArray [p0; p1; p2]) ->
  closest_of_three p s =
  Done (if num_ltb (distance p1 p2) (distance p0 p1)
        then [Some p1; Some p2] else [Some p0; Some p1],
        mkState (heap s)
          (mkThis (_best1 (this s)) (_best2 (this s)) (distance p0 p1))
          ((p1, p2, distance p0 p1) :: (p0, p1, distance p0 p1) :: examined s)).
Proof.
  intros Hp. unfold closest_of_three.
  eapply step_Done; [by apply obj_at_Done|].
  eapply step_Done; [by apply obj_at_Done|].
  do 4 (eapply step_Done; [reflexivity|]).
  eapply step_Done; [by apply obj_at_Done|].
  do 3 (eapply step_Done; [reflexivity|]).
  cbn [index Z.ltb Z.compare Z.to_nat Pos.to_nat Pos.iter_op Init.Nat.add
       lookup list_lookup this heap examined _bestDist _best1 _best2].
  by destruct (num_ltb (distance p1 p2) (distance p0 p1)).
Qed.

(** The last block returns the recorded pair, which is a pair of the
    points and whose distance is the running best. *)
Lemma closest_of_many_Done p pX pts s :
  heap s !! p = Some (ObjArray pX) ->
  pX ≡ₚ pts -> (2 <= length pts)%nat ->
  Inv (two_of pts) s ->
  exists a b s' pY,
    closest_of_many p (Z.of_nat (length pts)) s = Done ([Some a; Some b], s') /\
    heap s' = heap s ++ [ObjArray pY] /\
    pY ≡ₚ pts /\
    _best1 (this s') = Some a /\ _best2 (this s') = Some b /\
    _bestDist (this s') = distance a b /\
    two_of pts a b /\
    num_le (_bestDist (this s')) (_bestDist (this s)) /\
    Inv (two_of pts) s'.
Proof.
  intros Hp Hperm Hn HI.
  assert (Hlt : (p < length (heap s))%nat) by (by eapply lookup_lt_Some).
  unfold closest_of_many.
  set (s1 := mkState (heap s ++ [ObjArray pX]) (this s) (examined s)).
  destruct (closestPoint_Done pts (Z.to_nat (Z.of_nat (length pts)))
              p (length (heap s)) 0 (Z.of_nat (length pts) - 1) pX pX s1)
    as (d & s' & pY & H & Hh & HpY & HI' & Hb & Hd & Hne); try done.
  - by apply lookup_app_l_Some.
  - by apply list_lookup_middle.
  - lia.
  - by rewrite Hperm.
  - lia.
  - lia.
  - assert (Hset : _bestDist (this s') <> MAX_VALUE).
    { eapply num_le_not_MAX; [exact Hd|]. apply Hne. lia. }
    destruct HI' as (Hrec & HI').
    destruct Hrec as [?|(a & b & H1 & H2 & H3 & H4)]; [done|].
    exists a, b, s', pY.
    split.
    { eapply step_Done; [by apply slice_Done|].
      eapply step_Done; [exact H|].
      unfold bind, get_best1, get_best2, ret. by rewrite H1, H2. }
    split; [by rewrite Hh; simpl; rewrite insert_last|].
    split_and!; try done. split; [|done]. right. by exists a, b.
Qed.

(** *** The four cases of [closestPoints] *)


Lemma closestPoints_no_points xr yr xs ys s :
  heap s !! xr = Some (NumArray xs) ->
  heap s !! yr = Some (NumArray ys) ->
  no_points (Some xs) (Some ys) ->
  closestPoints (Some xr) (Some yr) s = Done ([], s).
Proof.
  intros Hx Hy Hno. unfold closestPoints.
  eapply step_Done; [by apply num_length_Done|].
  eapply step_Done; [by apply num_length_Done|].
  destruct (Z.of_nat (length xs) =? 0) eqn:E1; [done|].
  destruct (Z.of_nat (length ys) =? 0) eqn:E2; [done|].
  apply Z.eqb_neq in E1, E2. cbn [orb].
  destruct (Z.of_nat (length xs) =? Z.of_nat (length ys)) eqn:E3; [|done].
  apply Z.eqb_eq in E3. simpl in Hno. lia.
Qed.

Lemma closestPoints_one xr yr px py s :
  heap s !! xr = Some (NumArray [px]) ->
  heap s !! yr = Some (NumArray [py]) ->
  closestPoints (Some xr) (Some yr) s =
  Done ([Some (mkPoint px py); Some (mkPoint px py)], s).
Proof.
  intros Hx Hy. unfold closestPoints.
  eapply step_Done; [by apply num_length_Done|].
  eapply step_Done; [by apply num_length_Done|].
  cbn [length Z.of_nat Z.eqb orb negb Pos.of_succ_nat Pos.eqb].
  eapply step_Done; [by eapply num_at_Done|].
  eapply step_Done; [by eapply num_at_Done|]. reflexivity.
Qed.

Lemma closestPoints_three_Done xr yr xs ys s :
  heap s !! xr = Some (NumArray xs) ->
  heap s !! yr = Some (NumArray ys) ->
  length xs = 3%nat -> length ys = 3%nat ->
  exists p0 p1 p2,
    sorted_copy (comparator [prop_x]) (points_of xs ys) = [p0; p1; p2] /\
    closestPoints (Some xr) (Some yr) s =
    Done (if num_ltb (distance p1 p2) (distance p0 p1)
          then [Some p1; Some p2] else [Some p0; Some p1],
          mkState (heap s ++ [ObjArray [p0; p1; p2]])
            (mkThis None None (distance p0 p1))
            [(p1, p2, distance p0 p1); (p0, p1, distance p0 p1)]).
Proof.
  intros Hx Hy Hlx Hly.
  pose proof (sorted_copy_length (comparator [prop_x]) (points_of xs ys)) as Hl.
  rewrite points_of_length in Hl by congruence.
  destruct (sorted_copy _ _) as [|p0 [|p1 [|p2 [|]]]] eqn:Hs; simpl in Hl; try lia.
  exists p0, p1, p2. split; [done|].
  rewrite (closestPoints_prefix _ _ xs ys) by (done || lia).
  rewrite Hs, Hlx. simpl (_ =? _). cbv iota.
  rewrite (closest_of_three_Done _ p0 p1 p2); [done|].
  by apply list_lookup_middle.
Qed.

Lemma closestPoints_many_Done xr yr xs ys s :
  heap s !! xr = Some (NumArray xs) ->
  heap s !! yr = Some (NumArray ys) ->
  length xs = length ys -> (2 <= length xs)%nat -> length xs <> 3%nat ->
  exists a b s' pY,
    closestPoints (Some xr) (Some yr) s = Done ([Some a; Some b], s') /\
    heap s' = heap s ++
              [ObjArray (sorted_copy (comparator [prop_x]) (points_of xs ys));
               ObjArray pY] /\
    pY ≡ₚ points_of xs ys /\
    _best1 (this s') = Some a /\ _best2 (this s') = Some b /\
    _bestDist (this s') = distance a b /\
    two_of (points_of xs ys) a b /\
    Inv (two_of (points_of xs ys)) s'.
Proof.
  intros Hx Hy Hlen Hn H3.
  rewrite (closestPoints_prefix _ _ xs ys) by done.
  replace (Z.of_nat (length xs) =? 3) with false by (symmetry; apply Z.eqb_neq; lia).
  rewrite <- (points_of_length xs ys) by done.
  set (s0 := mkState _ _ _).
  destruct (closest_of_many_Done (length (heap s))
              (sorted_copy (comparator [prop_x]) (points_of xs ys))
              (points_of xs ys) s0)
    as (a & b & s' & pY & H & Hh & Hp & H1 & H2 & H3' & H4 & _ & HI).
  - by apply list_lookup_middle.
  - apply sorted_copy_Permutation.
  - by rewrite points_of_length.
  - split; [by left|]. by split_and!.
  - exists a, b, s', pY. split; [done|]. split_and!; try done.
    rewrite Hh. simpl. by rewrite <- app_assoc.
Qed.

(** Every call on two arrays of numbers returns; the result is empty for
    the inputs without points and a pair otherwise; the heap only grows. *)
Lemma closestPoints_Done xr yr xs ys s :
  heap s !! xr = Some (NumArray xs) ->
  heap s !! yr = Some (NumArray ys) ->
  exists res s' fresh,
    closestPoints (Some xr) (Some yr) s = Done (res, s') /\
    heap s' = heap s ++ fresh /\
    (no_points (Some xs) (Some ys) -> res = []) /\
    (~ no_points (Some xs) (Some ys) -> exists a b, res = [Some a; Some b]).
Proof.
  intros Hx Hy.
  destruct (decide (length xs = 0%nat \/ length ys = 0%nat \/ length xs <> length ys))
    as [Hno|Hpts].
  { exists [], s, []. rewrite (closestPoints_no_points _ _ xs ys) by done.
    rewrite app_nil_r. by split_and!. }
  assert (Hlen : length xs = length ys) by lia.
  destruct (decide (length xs = 1%nat)) as [H1|H1].
  { destruct xs as [|px [|]]; simpl in H1; try lia.
    destruct ys as [|py [|]]; simpl in Hlen; try lia.
    exists [Some (mkPoint px py); Some (mkPoint px py)], s, [].
    rewrite (closestPoints_one _ _ px py) by done. rewrite app_nil_r.
    split_and!; try done. intros _. by eexists _, _. }
  destruct (decide (length xs = 3%nat)) as [H3|H3].
  { destruct (closestPoints_three_Done _ _ xs ys s Hx Hy) as (p0 & p1 & p2 & _ & H);
      [lia..|].
    eexists _, _, _. split; [exact H|]. cbn [heap]. split_and!; try done.
    intros _. destruct (num_ltb _ _); by eexists _, _. }
  destruct (closestPoints_many_Done _ _ xs ys s Hx Hy)
    as (a & b & s' & pY & H & Hh & _); [lia..|].
  eexists _, s', _. split; [exact H|]. split; [exact Hh|].
  split; [done|]. intros _. by exists a, b.
Qed.

(** ** Termination *)

Lemma bind_terminates {A B} (m : M A) (k : A -> M B) s :
  terminates (m s) ->
  (forall a s', m s = Done (a, s') -> terminates (k a s')) ->
  terminates (bind m k s).
Proof.
  unfold bind, terminates. destruct (m s) as [[a s']| |]; [|done..].
  intros _ H. by apply H.
Qed.

Lemma read_array_terminates r s : terminates (read_array r s).
Proof. unfold read_array, terminates. by destruct (heap s !! r). Qed.

Lemma objs_terminates r s : terminates (objs r s).
Proof.
  apply bind_terminates; [apply read_array_terminates|]. by intros [] ? _.
Qed.

Lemma nums_terminates r s : terminates (nums r s).
Proof.
  apply bind_terminates; [apply read_array_terminates|]. by intros [] ? _.
Qed.

Lemma num_at_terminates r i s : terminates (num_at r i s).
Proof.
  apply bind_terminates; [apply nums_terminates|].
  intros l ? _. by destruct (index l i).
Qed.

Lemma obj_at_terminates r i s : terminates (obj_at r i s).
Proof. apply bind_terminates; [apply objs_terminates|]. done. Qed.

Lemma deref_terminates o s : terminates (deref o s).
Proof. by destruct o. Qed.

Lemma sort_terminates r cmp s : terminates (sort r cmp s).
Proof. apply bind_terminates; [apply objs_terminates|]. done. Qed.

Lemma push_terminates r o s : terminates (push r o s).
Proof. apply bind_terminates; [apply objs_terminates|]. done. Qed.

Lemma slice_terminates r s : terminates (slice r s).
Proof. apply bind_terminates; [apply objs_terminates|]. done. Qed.

Lemma num_length_nonneg r s n s' : num_length r s = Done (n, s') -> 0 <= n.
Proof.
  unfold num_length, nums, bind, read_array, ret, fault.
  destruct (heap s !! r) as [[l|l]|]; try done.
  intros [= <- _]. lia.
Qed.

Lemma num_length_terminates r s : terminates (num_length r s).
Proof. apply bind_terminates; [apply nums_terminates|]. done. Qed.

Lemma strip_loop_terminates count : forall pointsByY median d i tmp s,
  terminates (strip_loop count pointsByY median d i tmp s).
Proof.
  induction count as [|count IH]; intros; [done|]. simpl.
  apply bind_terminates; [apply obj_at_terminates|]. intros o ? _.
  apply bind_terminates; [apply deref_terminates|]. intros q ? _.
  apply bind_terminates; [apply deref_terminates|]. intros m ? _.
  destruct (Z_ltb_num _ _); apply IH.
Qed.

Lemma examine_terminates ti tj d s : terminates (examine ti tj d s).
Proof.
  unfold examine.
  apply bind_terminates; [|done].
  destruct (num_ltb (distance ti tj) d); [|done].
  apply bind_terminates; [done|]. intros best ? _.
  apply bind_terminates; [|done].
  by destruct (num_ltb (distance ti tj) best).
Qed.

Lemma scan_from_terminates ti rest : forall d s,
  terminates (scan_from ti rest d s).
Proof.
  induction rest as [|tj rest IH]; intros; [done|]. simpl.
  destruct (Z_ltb_num _ _); [|done].
  apply bind_terminates; [apply examine_terminates|]. intros. apply IH.
Qed.

Lemma scan_terminates tmp : forall d s, terminates (scan tmp d s).
Proof.
  induction tmp as [|ti rest IH]; intros; [done|]. simpl.
  apply bind_terminates; [apply scan_from_terminates|]. intros. apply IH.
Qed.

(** The fuel that is enough: one unit more than the length of the range. *)
Lemma closestPoint_enough_fuel fuel : forall pointsByX pointsByY from to s,
  (Z.to_nat (to - from) < fuel)%nat ->
  terminates (__closestPoint fuel pointsByX pointsByY from to s).
Proof.
  induction fuel as [|fuel IH]; intros rx ry from to s Hfuel; [lia|].
  simpl. destruct (to <=? from) eqn:Hcmp; [done|].
  apply Z.leb_gt in Hcmp. destruct (mid_bounds _ _ Hcmp) as [Hm1 Hm2].
  apply bind_terminates; [apply obj_at_terminates|]. intros median ? _.
  apply bind_terminates; [apply IH; lia|]. intros left ? _.
  apply bind_terminates; [apply IH; lia|]. intros right ? _.
  apply bind_terminates; [apply sort_terminates|]. intros [] ? _.
  apply bind_terminates; [apply strip_loop_terminates|]. intros tmp ? _.
  apply scan_terminates.
Qed.

Lemma fill_loop_terminates count : forall p xr yr i s,
  terminates (fill_loop count p xr yr i s).
Proof.
  induction count as [|count IH]; intros; [done|]. simpl.
  apply bind_terminates; [apply num_at_terminates|]. intros xi ? _.
  apply bind_terminates; [apply num_at_terminates|]. intros yi ? _.
  apply bind_terminates; [apply push_terminates|]. intros. apply IH.
Qed.

Lemma closest_of_three_terminates p s : terminates (closest_of_three p s).
Proof.
  unfold closest_of_three.
  apply bind_terminates; [apply obj_at_terminates|]. intros o0 ? _.
  apply bind_terminates; [apply obj_at_terminates|]. intros o1 ? _.
  apply bind_terminates; [apply deref_terminates|]. intros p1 ? _.
  apply bind_terminates; [apply deref_terminates|]. intros p0 ? _.
  apply bind_terminates; [done|]. intros [] ? _.
  apply bind_terminates; [done|]. intros [] ? _.
  apply bind_terminates; [apply obj_at_terminates|]. intros o2 ? _.
  apply bind_terminates; [apply deref_terminates|]. intros p2 ? _.
  apply bind_terminates; [done|]. intros best ? _.
  apply bind_terminates; [done|]. intros [] ? _.
  by destruct (num_ltb _ _).
Qed.

Lemma closest_of_many_terminates p n s :
  1 <= n -> terminates (closest_of_many p n s).
Proof.
  intros Hn. unfold closest_of_many.
  apply bind_terminates; [apply slice_terminates|]. intros pY ? _.
  apply bind_terminates; [apply closestPoint_enough_fuel; lia|]. intros d ? _.
  done.
Qed.

Lemma closestPoints_runs_to_completion _xcoord _ycoord s :
  terminates (closestPoints _xcoord _ycoord s).
Proof.
  destruct _xcoord as [xr|], _ycoord as [yr|]; try done.
  unfold closestPoints.
  apply bind_terminates; [apply num_length_terminates|]. intros n s1 Hn.
  apply num_length_nonneg in Hn.
  apply bind_terminates; [apply num_length_terminates|]. intros ylen ? _.
  destruct (_ || _); [done|]. destruct (negb _); [done|].
  destruct (n =? 0) eqn:E0; [done|]. apply Z.eqb_neq in E0.
  destruct (n =? 1).
  { apply bind_terminates; [apply num_at_terminates|]. intros x0 ? _.
    apply bind_terminates; [apply num_at_terminates|]. done. }
  apply bind_terminates.
  { destruct (n =? 2); [|done].
    apply bind_terminates; [apply num_at_terminates|]. intros x0 ? _.
    apply bind_terminates; [apply num_at_terminates|]. intros y0 ? _.
    apply bind_terminates; [apply num_at_terminates|]. intros x1 ? _.
    apply bind_terminates; [apply num_at_terminates|]. done. }
  intros points ? _.
  apply bind_terminates; [done|]. intros p ? _.
  apply bind_terminates; [apply fill_loop_terminates|]. intros [] ? _.
  apply bind_terminates; [apply sort_terminates|]. intros [] ? _.
  do 4 (apply bind_terminates; [done|]; intros [] ? _).
  destruct (n =? 3).
  - apply closest_of_three_terminates.
  - apply closest_of_many_terminates. lia.
Qed.

(** With two points the last block returns them in the order of the
    array sorted by y. *)
Lemma closest_of_many_two p q0 q1 s :
  heap s !! p = Some (ObjArray [q0; q1]) ->
  _bestDist (this s) = MAX_VALUE ->
  exists r0 r1 s',
    sorted_copy (comparator [prop_y]) [q0; q1] = [r0; r1] /\
    closest_of_many p 2 s = Done ([Some r0; Some r1], s').
Proof.
  intros Hp Hbest.
  pose proof (sorted_copy_length (comparator [prop_y]) [q0; q1]) as Hl.
  destruct (sorted_copy _ _) as [|r0 [|r1 [|]]] eqn:Hs; simpl in Hl; try lia.
  exists r0, r1. eexists. split; [done|].
  assert (Hlt : (p < length (heap s))%nat) by (by eapply lookup_lt_Some).
  unfold closest_of_many.
  eapply step_Done; [by apply slice_Done|].
  change (Z.to_nat 2) with 2%nat. change (2 - 1) with 1.
  eapply step_Done.
  { cbn [__closestPoint]. change (1 <=? 0) with false. cbv iota.
    change (0 + (1 - 0) / 2) with 0. change (0 <=? 0) with true.
    change (0 + 1) with 1. change (1 <=? 1) with true. cbv iota.
    eapply step_Done.
    { apply obj_at_Done. simpl. by apply lookup_app_l_Some. }
    eapply step_Done; [reflexivity|].
    eapply step_Done; [reflexivity|].
    eapply step_Done.
    { apply sort_Done. simpl. by apply list_lookup_middle. }
    rewrite Hs. cbn [heap this examined]. rewrite insert_last.
    eapply step_Done.
    { eapply (strip_loop_Done _ _ q0 _ 0 [] [r0; r1]);
        [simpl; by apply list_lookup_middle|lia|simpl; lia]. }
    change (Math_min MAX_VALUE MAX_VALUE) with MAX_VALUE.
    rewrite in_strip_MAX.
    change (Z.to_nat (1 - 0 + 1)) with 2%nat. change (Z.to_nat 0) with 0%nat.
    cbn [app take drop scan scan_from]. rewrite Z_ltb_num_MAX.
    eapply step_Done.
    { eapply step_Done.
      { unfold examine.
        change (num_ltb (distance r0 r1) MAX_VALUE) with true. cbv iota.
        eapply step_Done.
        { eapply step_Done; [reflexivity|].
          cbn [this _bestDist]. rewrite Hbest.
          change (num_ltb (distance r0 r1) MAX_VALUE) with true. cbv iota.
          eapply step_Done; [|reflexivity].
          eapply step_Done; [reflexivity|].
          eapply step_Done; reflexivity. }
        eapply step_Done; reflexivity. }
      reflexivity. }
    reflexivity. }
  reflexivity.
Qed.

(** ** The properties of the specification *)


(** On coordinates in range the routine on doubles returns what the model
    returns; here on the point cloud of the test suite and on the clouds of
    C1 and C2. *)
Lemma Double_run_examples :
  Double.run (map Double.of_int fixture_xs) (map Double.of_int fixture_ys) =
    Done [Some (Double.mkPoint 0 (-2)); Some (Double.mkPoint 1 (-2))] /\
  result_of (run fixture_xs fixture_ys) =
    Done [Some (mkPoint 0 (-2)); Some (mkPoint 1 (-2))] /\
  Double.run [-1; 0; 3; 5]%float [100; 0; 1; 3]%float =
    Done [Some (Double.mkPoint 0 0); Some (Double.mkPoint 3 1)] /\
  result_of (run [-1; 0; 3; 5] [100; 0; 1; 3]) =
    Done [Some (mkPoint 0 0); Some (mkPoint 3 1)] /\
  Double.run [0; 1; 2]%float [0; 10; 0]%float =
    Done [Some (Double.mkPoint 0 0); Some (Double.mkPoint 1 10)] /\
  result_of (run [0; 1; 2] [0; 10; 0]) =
    Done [Some (mkPoint 0 0); Some (mkPoint 1 10)].
Proof. vm_compute. by split_and!. Qed.

(** C1, on the code: a cloud of four points for which the tracked best
    distance and the returned pair are not the closest pair.  The pair
    (3,1)-(5,3), at distance sqrt 8, is never examined: the strip of each
    activation is cut from positions [from..to] of the array sorted by y,
    which are not the points of the positions [from..to] of the array
    sorted by x. *)
Theorem closestPoints_four_points_not_closest :
  exists s',
    run [-1; 0; 3; 5] [100; 0; 1; 3] =
      Done ([Some (mkPoint 0 0); Some (mkPoint 3 1)], s') /\
    _bestDist (this s') = Math_sqrt 10 /\
    brute_force (points_of [-1; 0; 3; 5] [100; 0; 1; 3]) = Math_sqrt 8 /\
    distance (mkPoint 3 1) (mkPoint 5 3) = Math_sqrt 8 /\
    num_ltb (Math_sqrt 8) (_bestDist (this s')) = true.
Proof. eexists. vm_compute. by split_and!. Qed.










(** C5: on the point cloud of the test suite the returned pair is at
    distance 1, the minimum over all pairs, hence within 0.001 of 1. *)
Theorem closestPoints_fixture :
  exists a b s',
    run fixture_xs fixture_ys = Done ([Some a; Some b], s') /\
    distance a b = Math_sqrt 1 /\
    within_1e3_of_one (distance a b) /\
    brute_force (points_of fixture_xs fixture_ys) = Math_sqrt 1.
Proof.
  exists (mkPoint 0 (-2)), (mkPoint 1 (-2)). eexists.
  split; [vm_compute; reflexivity|].
  split; [reflexivity|]. split; [vm_compute; by split|]. vm_compute. reflexivity.
Qed.




(** C7: with exactly one point (px, py) the result is that point twice, at
    distance 0, and nothing is changed. *)
Theorem closestPoints_single_point s xr yr px py :
  heap s !! xr = Some (NumArray [px]) ->
  heap s !! yr = Some (NumArray [py]) ->
  closestPoints (Some xr) (Some yr) s =
    Done ([Some (mkPoint px py); Some (mkPoint px py)], s) /\
  distance (mkPoint px py) (mkPoint px py) = Math_sqrt 0.
Proof.
  intros Hx Hy. split; [by apply closestPoints_one|].
  unfold distance. simpl. f_equal. lia.
Qed.

Lemma closestPoints_single_point_witness :
  let s := mkState [NumArray [4]; NumArray [7]] fresh_this [] in
  closestPoints (Some 0%nat) (Some 1%nat) s =
    Done ([Some (mkPoint 4 7); Some (mkPoint 4 7)], s) /\
  distance (mkPoint 4 7) (mkPoint 4 7) = Math_sqrt 0.
Proof.
  intros s. apply (closestPoints_single_point s 0%nat 1%nat 4 7); reflexivity.
Defined.

(** C8, on the code: the array [points] that the block [if (n == 2)] fills
    with the two input points is not returned; the result comes out of the
    recursion.  When the square of a difference overflows the distance of
    the two points is [Infinity], no pair is recorded and the result is
    [null, null]; otherwise the two points come in the order of the sort by
    y of the sort by x, here the reverse of the input order. *)
Theorem closestPoints_two_points_not_returned_directly :
  Double.run [0; 0x1p+600]%float [0; 0]%float = Done [None; None] /\
  Double.run [0; 1]%float [1; 0]%float =
    Done [Some (Double.mkPoint 1 0); Some (Double.mkPoint 0 1)] /\
  result_of (run [0; 1] [1; 0]) = Done [Some (mkPoint 1 0); Some (mkPoint 0 1)].
Proof. vm_compute. by split_and!. Qed.

(** X28: with exactly two points, of integer coordinates of magnitude at
    most 2^23, the returned pair consists of the two input points
    (xs[0], ys[0]) and (xs[1], ys[1]); they come in the order of the sort
    by y of the sort by x. *)
Theorem closestPoints_two_points s xr yr x0 y0 x1 y1 :
  heap s !! xr = Some (NumArray [x0; x1]) ->
  heap s !! yr = Some (NumArray [y0; y1]) ->
  in_range [x0; x1] -> in_range [y0; y1] ->
  exists a b s',
    closestPoints (Some xr) (Some yr) s = Done ([Some a; Some b], s') /\
    [a; b] ≡ₚ [mkPoint x0 y0; mkPoint x1 y1] /\
    [a; b] = sorted_copy (comparator [prop_y])
               (sorted_copy (comparator [prop_x])
                  [mkPoint x0 y0; mkPoint x1 y1]).
Proof.
  intros Hx Hy _ _.
  rewrite (closestPoints_prefix _ _ _ _ s Hx Hy) by (simpl; lia).
  change (points_of [x0; x1] [y0; y1]) with [mkPoint x0 y0; mkPoint x1 y1].
  change (Z.of_nat (length [x0; x1])) with 2. change (2 =? 3) with false.
  cbv iota.
  pose proof (sorted_copy_Permutation (comparator [prop_x])
                [mkPoint x0 y0; mkPoint x1 y1]) as Hperm.
  pose proof (sorted_copy_length (comparator [prop_x])
                [mkPoint x0 y0; mkPoint x1 y1]) as Hl.
  destruct (sorted_copy _ _) as [|q0 [|q1 [|]]] eqn:Hs; simpl in Hl; try lia.
  set (s0 := mkState _ _ _).
  destruct (closest_of_many_two (length (heap s)) q0 q1 s0)
    as (r0 & r1 & s' & Hr & H); [by apply list_lookup_middle|done|].
  exists r0, r1, s'. split; [done|]. split; [|done].
  by rewrite <- Hr, sorted_copy_Permutation.
Qed.

Lemma closestPoints_two_points_witness :
  let s := mkState [NumArray [0; 1]; NumArray [1; 0]] fresh_this [] in
  exists a b s',
    closestPoints (Some 0%nat) (Some 1%nat) s = Done ([Some a; Some b], s') /\
    [a; b] ≡ₚ [mkPoint 0 1; mkPoint 1 0] /\
    [a; b] = sorted_copy (comparator [prop_y])
               (sorted_copy (comparator [prop_x]) [mkPoint 0 1; mkPoint 1 0]).
Proof.
  intros s. apply (closestPoints_two_points s 0%nat 1%nat 0 1 1 0); reflexivity.
Defined.

(** C9: the recursion ends for all index bounds and all arrays, given one
    unit of fuel more than the length of the range; when [from < to] both
    recursive calls are on strictly shorter ranges; hence every call of
    [closestPoints] runs to completion. *)
Theorem closestPoint_terminates fuel pointsByX pointsByY from to s :
  (Z.to_nat (to - from) < fuel)%nat ->
  terminates (__closestPoint fuel pointsByX pointsByY from to s) /\
  (from < to ->
     let mid := from + (to - from) / 2 in
     from <= mid /\ mid < to /\
     (Z.to_nat (mid - from) < Z.to_nat (to - from))%nat /\
     (Z.to_nat (to - (mid + 1)) < Z.to_nat (to - from))%nat) /\
  (forall _xcoord _ycoord, terminates (closestPoints _xcoord _ycoord s)).
Proof.
  intros Hfuel. split; [by apply closestPoint_enough_fuel|]. split.
  - intros Hlt mid. destruct (mid_bounds _ _ Hlt). unfold mid. lia.
  - intros. apply closestPoints_runs_to_completion.
Qed.

Lemma closestPoint_terminates_witness :
  let s := mkState [ObjArray [mkPoint 0 0; mkPoint 1 1; mkPoint 2 5];
                    ObjArray [mkPoint 0 0; mkPoint 1 1; mkPoint 2 5]]
             fresh_this [] in
  (Z.to_nat (2 - 0) < 3)%nat /\
  terminates (__closestPoint 3 0%nat 1%nat 0 2 s) /\
  (0 < 2 ->
     let mid := 0 + (2 - 0) / 2 in
     0 <= mid /\ mid < 2 /\
     (Z.to_nat (mid - 0) < Z.to_nat (2 - 0))%nat /\
     (Z.to_nat (2 - (mid + 1)) < Z.to_nat (2 - 0))%nat) /\
  (forall _xcoord _ycoord, terminates (closestPoints _xcoord _ycoord s)).
Proof.
  intros s. split; [simpl; lia|].
  apply (closestPoint_terminates 3 0%nat 1%nat 0 2 s). simpl. lia.
Defined.

(** C10: a call leaves both input arrays, and every array that existed
    before it, as they were: the arrays it sorts are arrays it allocated. *)
Theorem closestPoints_preserves_inputs s xr yr xs ys :
  heap s !! xr = Some (NumArray xs) ->
  heap s !! yr = Some (NumArray ys) ->
  exists res s',
    closestPoints (Some xr) (Some yr) s = Done (res, s') /\
    heap s' !! xr = Some (NumArray xs) /\
    heap s' !! yr = Some (NumArray ys) /\
    (exists fresh, heap s' = heap s ++ fresh) /\
    (forall r a, heap s !! r = Some a -> heap s' !! r = Some a).
Proof.
  intros Hx Hy.
  destruct (closestPoints_Done xr yr xs ys s Hx Hy)
    as (res & s' & fresh & H & Hh & _).
  exists res, s'. split; [done|]. rewrite Hh.
  split; [by apply lookup_app_l_Some|]. split; [by apply lookup_app_l_Some|].
  split; [by exists fresh|]. intros r a. apply lookup_app_l_Some.
Qed.

Lemma closestPoints_preserves_inputs_witness :
  let s := mkState [NumArray [5; 0; 1; 2; 7]; NumArray [0; 10; 0; 3; 4]]
             fresh_this [] in
  exists res s',
    closestPoints (Some 0%nat) (Some 1%nat) s = Done (res, s') /\
    heap s' !! 0%nat = Some (NumArray [5; 0; 1; 2; 7]) /\
    heap s' !! 1%nat = Some (NumArray [0; 10; 0; 3; 4]) /\
    (exists fresh, heap s' = heap s ++ fresh) /\
    (forall r a, heap s !! r = Some a -> heap s' !! r = Some a).
Proof.
  intros s.
  apply (closestPoints_preserves_inputs s 0%nat 1%nat
           [5; 0; 1; 2; 7] [0; 10; 0; 3; 4]); reflexivity.
Defined.

(** ** What the closest-pair search guarantees *)

Lemma two_of_indices pts a b :
  two_of pts a b ->
  exists i j, i <> j /\ pts !! i = Some a /\ pts !! j = Some b.
Proof.
  intros (l & Hperm & Hsub).
  apply sublist_cons_l in Hsub as (k1 & k2 & -> & Hb).
  apply singleton_sublist_l, list_elem_of_lookup in Hb as [j Hj].
  apply Permutation_inj in Hperm as (_ & f & Hinj & Hf).
  exists (f (length k1)), (f (S (length k1 + j))). split_and!.
  - intros E. apply Hinj in E. lia.
  - rewrite <- Hf. by apply list_lookup_middle.
  - rewrite <- Hf. rewrite lookup_app_r by lia.
    by replace (S (length k1 + j) - length k1)%nat with (S j) by lia.
Qed.

Lemma min_distance_from_le a b l :
  b ∈ l -> num_le (min_distance_from a l) (distance a b).
Proof.
  induction 1 as [b l|b c l Hin IH]; simpl.
  - apply Math_min_le_l.
  - eapply num_le_trans; [apply Math_min_le_r|exact IH].
Qed.

Lemma brute_force_le_ordered l : forall i j a b,
  (i < j)%nat -> l !! i = Some a -> l !! j = Some b ->
  num_le (brute_force l) (distance a b).
Proof.
  induction l as [|c l IH]; intros i j a b Hij Hi Hj; [done|].
  simpl. destruct i as [|i].
  - injection Hi as ->. destruct j as [|j]; [lia|].
    eapply num_le_trans; [apply Math_min_le_l|].
    apply min_distance_from_le. by eapply list_elem_of_lookup_2.
  - destruct j as [|j]; [lia|].
    eapply num_le_trans; [apply Math_min_le_r|].
    apply (IH i j); [lia|done..].
Qed.

Lemma brute_force_le l i j a b :
  i <> j -> l !! i = Some a -> l !! j = Some b ->
  num_le (brute_force l) (distance a b).
Proof.
  intros Hij Hi Hj. destruct (decide (i < j)%nat).
  - by apply (brute_force_le_ordered l i j).
  - rewrite distance_sym. apply (brute_force_le_ordered l j i); [lia|done..].
Qed.

(** X1: with two points or more, of integer coordinates of magnitude at
    most 2^23, the call returns two input points taken from two different
    positions of the input, so the distance between them is never below the
    minimum over all pairs. *)
Theorem closestPoints_returns_two_input_points s xr yr xs ys :
  heap s !! xr = Some (NumArray xs) ->
  heap s !! yr = Some (NumArray ys) ->
  in_range xs -> in_range ys ->
  length xs = length ys -> (2 <= length xs)%nat ->
  exists a b s' i j,
    closestPoints (Some xr) (Some yr) s = Done ([Some a; Some b], s') /\
    i <> j /\
    points_of xs ys !! i = Some a /\ points_of xs ys !! j = Some b /\
    num_le (brute_force (points_of xs ys)) (Math_sqrt (sq_distance a b)).
Proof.
  intros Hx Hy _ _ Hlen Hn.
  assert (Hgen : exists a b s',
            closestPoints (Some xr) (Some yr) s = Done ([Some a; Some b], s') /\
            two_of (points_of xs ys) a b).
  { destruct (decide (length xs = 3%nat)) as [H3|H3].
    - destruct (closestPoints_three_Done _ _ xs ys s Hx Hy)
        as (p0 & p1 & p2 & Hs & H); [lia..|].
      assert (Hp : [p0; p1; p2] ≡ₚ points_of xs ys)
        by (rewrite <- Hs; apply sorted_copy_Permutation).
      destruct (num_ltb (distance p1 p2) (distance p0 p1));
        eexists _, _, _; (split; [exact H|]); exists [p0; p1; p2];
        (split; [done|]).
      + by apply sublist_cons.
      + apply sublist_skip, sublist_skip, sublist_nil_l.
    - destruct (closestPoints_many_Done _ _ xs ys s Hx Hy)
        as (a & b & s' & pY & H & _ & _ & _ & _ & _ & Htwo & _); [done..|].
      by exists a, b, s'. }
  destruct Hgen as (a & b & s' & H & Htwo).
  destruct (two_of_indices _ _ _ Htwo) as (i & j & Hij & Hi & Hj).
  exists a, b, s', i, j. split_and!; try done.
  rewrite <- distance_sq. by apply (brute_force_le _ i j).
Qed.

Lemma closestPoints_returns_two_input_points_witness :
  let s := mkState [NumArray [0; 1; 2]; NumArray [0; 10; 0]] fresh_this [] in
  exists a b s' i j,
    closestPoints (Some 0%nat) (Some 1%nat) s = Done ([Some a; Some b], s') /\
    i <> j /\
    points_of [0; 1; 2] [0; 10; 0] !! i = Some a /\
    points_of [0; 1; 2] [0; 10; 0] !! j = Some b /\
    num_le (brute_force (points_of [0; 1; 2] [0; 10; 0]))
           (Math_sqrt (sq_distance a b)).
Proof.
  intros s.
  apply (closestPoints_returns_two_input_points s 0%nat 1%nat [0; 1; 2] [0; 10; 0]);
    (reflexivity || (simpl; lia)).
Defined.

(** X2: with two points or more, three apart, of integer coordinates of
    magnitude at most 2^23, the returned array holds the fields [_best1]
    and [_best2], and [_bestDist] is the distance between them. *)
Theorem closestPoints_fields_match_result s xr yr xs ys :
  heap s !! xr = Some (NumArray xs) ->
  heap s !! yr = Some (NumArray ys) ->
  in_range xs -> in_range ys ->
  length xs = length ys -> (2 <= length xs)%nat -> length xs <> 3%nat ->
  exists a b s',
    closestPoints (Some xr) (Some yr) s = Done ([Some a; Some b], s') /\
    [_best1 (this s'); _best2 (this s')] = [Some a; Some b] /\
    _bestDist (this s') = Math_sqrt (sq_distance a b).
Proof.
  intros Hx Hy _ _ Hlen Hn H3.
  destruct (closestPoints_many_Done _ _ xs ys s Hx Hy)
    as (a & b & s' & pY & H & _ & _ & H1 & H2 & Hd & _); [done..|].
  exists a, b, s'. by rewrite H1, H2, Hd, distance_sq.
Qed.

Lemma closestPoints_fields_match_result_witness :
  let s := mkState [NumArray [5; 0; 1; 2]; NumArray [0; 10; 0; 3]] fresh_this [] in
  exists a b s',
    closestPoints (Some 0%nat) (Some 1%nat) s = Done ([Some a; Some b], s') /\
    [_best1 (this s'); _best2 (this s')] = [Some a; Some b] /\
    _bestDist (this s') = Math_sqrt (sq_distance a b).
Proof.
  intros s.
  apply (closestPoints_fields_match_result s 0%nat 1%nat [5; 0; 1; 2] [0; 10; 0; 3]);
    (reflexivity || (simpl; lia)).
Defined.



(** X4: with at most one point, or with arrays of different lengths, a call
    returns before it touches anything: no field is reset and nothing is
    allocated, so the fields keep what an earlier call left in them. *)
Theorem closestPoints_early_return_keeps_state s xr yr xs ys :
  heap s !! xr = Some (NumArray xs) ->
  heap s !! yr = Some (NumArray ys) ->
  (length xs <= 1)%nat \/ length xs <> length ys ->
  exists res, closestPoints (Some xr) (Some yr) s = Done (res, s).
Proof.
  intros Hx Hy Hn.
  destruct (decide (length xs = 0%nat \/ length ys = 0%nat \/ length xs <> length ys))
    as [Hno|Hpts].
  { exists []. by rewrite (closestPoints_no_points _ _ xs ys). }
  destruct xs as [|px [|]]; cbn [length] in Hn, Hpts; try lia.
  destruct ys as [|py [|]]; cbn [length] in Hn, Hpts; try lia.
  eexists. by apply (closestPoints_one _ _ px py).
Qed.

Lemma closestPoints_early_return_keeps_state_witness :
  let s := mkState [NumArray [4]; NumArray [7]]
             (mkThis (Some (mkPoint 0 0)) (Some (mkPoint 1 1)) (Math_sqrt 2)) [] in
  exists res, closestPoints (Some 0%nat) (Some 1%nat) s = Done (res, s).
Proof.
  intros s.
  apply (closestPoints_early_return_keeps_state s 0%nat 1%nat [4] [7]);
    [reflexivity|reflexivity|simpl; lia].
Defined.

(** X5: started as [closestPoints] starts it, on bounds within the arrays
    and on points of integer coordinates of magnitude at most 2^23, the
    recursion returns without reading outside the arrays; the only array it
    changes is the one behind [pointsByY], which it permutes; and on a range
    of two points or more it returns a distance and leaves a recorded pair of
    points of the array whose distance is [_bestDist], at most the distance
    returned. *)
Theorem closestPoint_permutes_pointsByY fuel pointsByX pointsByY from to pX pY s :
  heap s !! pointsByX = Some (ObjArray pX) ->
  heap s !! pointsByY = Some (ObjArray pY) ->
  pointsByX <> pointsByY ->
  points_in_range pX -> points_in_range pY ->
  length pX = length pY ->
  0 <= from -> to < Z.of_nat (length pY) ->
  (Z.to_nat (to - from) < fuel)%nat ->
  _bestDist (this s) = MAX_VALUE -> examined s = [] ->
  exists d s' pY',
    __closestPoint fuel pointsByX pointsByY from to s = Done (d, s') /\
    heap s' = <[pointsByY := ObjArray pY']> (heap s) /\ pY' ≡ₚ pY /\
    num_le (_bestDist (this s')) d /\
    (from < to ->
       d <> MAX_VALUE /\
       exists a b, _best1 (this s') = Some a /\ _best2 (this s') = Some b /\
                   _bestDist (this s') = distance a b /\ two_of pY a b).
Proof.
  intros Hx Hy Hne _ _ Hlen Hfrom Hto Hfuel Hd Hh.
  destruct (closestPoint_Done pY fuel pointsByX pointsByY from to pX pY s)
    as (d & s' & pY' & H & Hheap & Hp & (Hrec & _) & _ & Hle & Hnm); try done.
  { split_and!.
    - by left.
    - by rewrite Hd, Hh.
    - by rewrite Hh.
    - by rewrite Hh. }
  exists d, s', pY'. split_and!; try done.
  intros Hlt. split; [by apply Hnm|].
  destruct Hrec as [Hmax|Hrec]; [|done].
  exfalso. by apply (num_le_not_MAX _ _ Hle (Hnm Hlt)).
Qed.

Lemma closestPoint_permutes_pointsByY_witness :
  let pts := [mkPoint 0 0; mkPoint 1 7; mkPoint 2 5] in
  let s := mkState [ObjArray pts; ObjArray pts] fresh_this [] in
  exists d s' pY',
    __closestPoint 3 0%nat 1%nat 0 2 s = Done (d, s') /\
    heap s' = <[1%nat := ObjArray pY']> (heap s) /\ pY' ≡ₚ pts /\
    num_le (_bestDist (this s')) d /\
    (0 < 2 ->
       d <> MAX_VALUE /\
       exists a b, _best1 (this s') = Some a /\ _best2 (this s') = Some b /\
                   _bestDist (this s') = distance a b /\ two_of pts a b).
Proof.
  intros pts s.
  apply (closestPoint_permutes_pointsByY 3 0%nat 1%nat 0 2 pts pts s);
    (reflexivity || (simpl; lia)).
Defined.

(** X6: the comparator of the sort is a lexicographic order on the listed
    properties: swapping the arguments negates the result, and the result is
    zero exactly when the objects agree on every listed property. *)
Theorem comparator_lexicographic sortProps a b :
  comparator sortProps b a = - comparator sortProps a b /\
  (comparator sortProps a b = 0 <->
   forall prop, prop ∈ sortProps -> get a prop = get b prop).
Proof.
  induction sortProps as [|prop props [IH1 IH2]].
  - split; [done|]. split; [|done]. intros _ prop Hin. by apply elem_of_nil in Hin.
  - cbn [comparator]. rewrite (Z.eqb_sym (get b prop)).
    destruct (get a prop =? get b prop) eqn:E.
    + apply Z.eqb_eq in E. destruct props as [|prop' props'].
      * cbn [length Nat.eqb negb andb]. split; [done|]. split; [|done].
        intros _ q Hq. apply list_elem_of_singleton in Hq. by subst.
      * cbn [length Nat.eqb negb andb]. split; [exact IH1|].
        rewrite IH2. split.
        -- intros H q Hq. apply elem_of_cons in Hq as [->|Hq]; [done|by apply H].
        -- intros H q Hq. apply H. by right.
    + apply Z.eqb_neq in E. cbn [andb]. split.
      * rewrite !Z.gtb_ltb.
        destruct (get b prop <? get a prop) eqn:E1, (get a prop <? get b prop) eqn:E2;
          try done; lia.
      * split.
        -- destruct (get a prop >? get b prop); done.
        -- intros H. exfalso. apply E, H. by left.
Qed.

(** ** The coordinate utilities

    The statements below are about the definitions of [Geom]. *)

Import Geom.
Local Open Scope Q_scope.

Lemma ltb_lt a b : ltb a b = true <-> a < b.
Proof.
  unfold ltb. rewrite negb_true_iff. split.
  - intros H. apply Qnot_le_lt. intros Hle. apply Qle_bool_iff in Hle. congruence.
  - intros H. destruct (Qle_bool b a) eqn:E; [|done].
    apply Qle_bool_iff in E. lra.
Qed.

Lemma ltb_ge a b : ltb a b = false <-> b <= a.
Proof.
  unfold ltb. rewrite negb_false_iff. apply Qle_bool_iff.
Qed.

Lemma Qle_bool_gt a b : Qle_bool a b = false <-> b < a.
Proof.
  split.
  - intros H. apply Qnot_le_lt. intros Hle. apply Qle_bool_iff in Hle. congruence.
  - intros H. destruct (Qle_bool a b) eqn:E; [|done].
    apply Qle_bool_iff in E. lra.
Qed.

Lemma Qeq_bool_ne a b : Qeq_bool a b = false <-> ~ a == b.
Proof.
  split; [apply Qeq_bool_neq|].
  intros H. destruct (Qeq_bool a b) eqn:E; [|done]. by apply Qeq_bool_iff in E.
Qed.

Lemma Qabs_lt_iff a c : Qabs a < c <-> - c < a /\ a < c.
Proof. apply Qabs_Qlt_condition. Qed.

Lemma Qabs_ge_iff a c : c <= Qabs a <-> a <= - c \/ c <= a.
Proof.
  split.
  - intros H. destruct (Qlt_le_dec a 0) as [Hn|Hp].
    + left. rewrite Qabs_neg in H by lra. lra.
    + right. rewrite Qabs_pos in H by lra. lra.
  - intros [H|H].
    + destruct (Qlt_le_dec a 0) as [Hn|Hp].
      * rewrite Qabs_neg by lra. lra.
      * rewrite Qabs_pos by lra. lra.
    + destruct (Qlt_le_dec a 0) as [Hn|Hp].
      * rewrite Qabs_neg by lra. lra.
      * rewrite Qabs_pos by lra. lra.
Qed.

(** Turns every test of the goal into the order fact it decides. *)
Ltac tests :=
  repeat match goal with
    | |- context [ltb ?a ?b] =>
        let E := fresh "E" in
        destruct (ltb a b) eqn:E;
        [apply ltb_lt in E | apply ltb_ge in E]
    | |- context [Qle_bool ?a ?b] =>
        let E := fresh "E" in
        destruct (Qle_bool a b) eqn:E;
        [apply Qle_bool_iff in E | apply Qle_bool_gt in E]
    | |- context [Qeq_bool ?a ?b] =>
        let E := fresh "E" in
        destruct (Qeq_bool a b) eqn:E;
        [apply Qeq_bool_iff in E | apply Qeq_bool_ne in E]
    end.

Ltac ltb_case a b :=
  let E := fresh "E" in
  destruct (ltb a b) eqn:E; [apply ltb_lt in E | apply ltb_ge in E].

Ltac no_abs :=
  repeat match goal with
    | H : Qabs _ < _ |- _ => apply Qabs_lt_iff in H
    | H : _ <= Qabs _ |- _ => apply Qabs_ge_iff in H
    end.

(** X7: [insideBox] holds exactly of the points strictly inside the box,
    whichever of [__top] and [__bottom] is the larger; a point on the
    boundary is outside, and a box with [__top = __bottom] has no inside. *)
Theorem insideBox_strictly_inside __x1 __y1 __left __top __right __bottom :
  insideBox __x1 __y1 __left __top __right __bottom = true <->
  __left < __x1 /\ __x1 < __right /\
  ((__top < __y1 /\ __y1 < __bottom) \/ (__bottom < __y1 /\ __y1 < __top)).
Proof.
  unfold insideBox. cbv zeta. tests; simpl; split; try done; try lra;
    intros; exfalso; lra.
Qed.

(** Decides every comparison of two bounds, [a < b] as the negation of
    [b <= a]. *)
Ltac nan_cases :=
  repeat (cbn [lt_nan le_nan negb andb]; unfold ltb;
          match goal with
          | |- context [Qle_bool ?a ?b] => destruct (Qle_bool a b)
          end);
  cbn [lt_nan le_nan negb andb].

(** On boxes whose properties are numbers the method returns a boolean,
    true exactly when the closed boxes overlap. *)
Lemma boxesIntersect_numbers l1 t1 r1 b1 l2 t2 r2 b2 :
  exists r,
    boxesIntersect (mkBound (Some l1) (Some t1) (Some r1) (Some b1))
                   (mkBound (Some l2) (Some t2) (Some r2) (Some b2)) = Some r /\
    (r = true <->
     l2 <= r1 /\ l1 <= r2 /\
     Qmin t2 b2 <= Qmax t1 b1 /\ Qmin t1 b1 <= Qmax t2 b2).
Proof.
  unfold boxesIntersect. cbn [left top right bottom lt_nan]. cbv zeta.
  destruct (Q.max_spec t1 b1) as [[? M1]|[? M1]];
    destruct (Q.max_spec t2 b2) as [[? M2]|[? M2]];
    destruct (Q.min_spec t1 b1) as [[? N1]|[? N1]];
    destruct (Q.min_spec t2 b2) as [[? N2]|[? N2]];
    try (exfalso; lra);
    ltb_case b1 t1; try (exfalso; lra);
    ltb_case b2 t2; try (exfalso; lra);
    cbn [lt_nan le_nan];
    tests; try (exfalso; lra);
    simpl; eexists; (split; [reflexivity|]); split; try done;
    try (intros _; split_and!; lra); try (intros (? & ? & ? & ?); exfalso; lra).
Qed.

(** X8: [boxesIntersect] falls off its end, returning [undefined], only
    when a [left] or [right] property is not a number; it returns true only
    for boxes whose properties are all numbers; and for such boxes it
    returns a boolean, true exactly when the two closed boxes overlap in x
    and in y, in either orientation of the y-axis; touching boxes
    intersect. *)
Theorem boxesIntersect_overlap __bound1 __bound2 :
  (boxesIntersect __bound1 __bound2 = None ->
   left __bound1 = None \/ right __bound1 = None \/
   left __bound2 = None \/ right __bound2 = None) /\
  (boxesIntersect __bound1 __bound2 = Some true ->
   numeric __bound1 /\ numeric __bound2) /\
  (forall l1 t1 r1 b1 l2 t2 r2 b2,
     __bound1 = mkBound (Some l1) (Some t1) (Some r1) (Some b1) ->
     __bound2 = mkBound (Some l2) (Some t2) (Some r2) (Some b2) ->
     exists r,
       boxesIntersect __bound1 __bound2 = Some r /\
       (r = true <->
        l2 <= r1 /\ l1 <= r2 /\
        Qmin t2 b2 <= Qmax t1 b1 /\ Qmin t1 b1 <= Qmax t2 b2)).
Proof.
  split_and!.
  - destruct __bound1 as [[l1|] t1 [r1|] b1], __bound2 as [[l2|] t2 [r2|] b2];
      cbn [left right]; try tauto.
    intros H. exfalso. revert H.
    destruct t1 as [t1|], b1 as [b1|], t2 as [t2|], b2 as [b2|];
      unfold boxesIntersect; cbn [left top right bottom]; cbv zeta;
      nan_cases; done.
  - destruct __bound1 as [[l1|] [t1|] [r1|] [b1|]],
             __bound2 as [[l2|] [t2|] [r2|] [b2|]];
      try (intros _; unfold numeric; cbn [left top right bottom];
           by split_and!; eexists);
      unfold boxesIntersect; cbn [left top right bottom]; cbv zeta;
      nan_cases; done.
  - intros l1 t1 r1 b1 l2 t2 r2 b2 -> ->. apply boxesIntersect_numbers.
Qed.

(** X9: [boxesIntersect] does not depend on the order of the boxes. *)
Theorem boxesIntersect_sym __bound1 __bound2 :
  boxesIntersect __bound1 __bound2 = boxesIntersect __bound2 __bound1.
Proof.
  destruct __bound1 as [[l1|] [t1|] [r1|] [b1|]],
           __bound2 as [[l2|] [t2|] [r2|] [b2|]];
    unfold boxesIntersect; cbn [left top right bottom]; cbv zeta;
    nan_cases; reflexivity.
Qed.

(** X10: for integer coordinates of magnitude at most 2^24, reversing the
    direction of the line exchanges [LEFT] and [RIGHT] and keeps [ON]. *)
Theorem pointOrientation_reverse __x1 __y1 __x2 __y2 __x __y :
  pixels [__x1; __y1; __x2; __y2; __x; __y] ->
  pointOrientation __x2 __y2 __x1 __y1 __x __y =
  match pointOrientation __x1 __y1 __x2 __y2 __x __y with
  | LEFT => RIGHT
  | RIGHT => LEFT
  | ON => ON
  end.
Proof.
  intros _. unfold pointOrientation. cbv zeta.
  tests; no_abs; try reflexivity; exfalso; lra.
Qed.

Lemma pointOrientation_reverse_witness :
  pointOrientation 4 0 0 0 1 3 =
  match pointOrientation 0 0 4 0 1 3 with
  | LEFT => RIGHT
  | RIGHT => LEFT
  | ON => ON
  end.
Proof. apply (pointOrientation_reverse 0 0 4 0 1 3). reflexivity. Defined.

(** X11: [pointOrientation] and [isClockwise] agree: a point to the left of
    the line from the first point to the second makes the three points
    counter-clockwise, a point to the right makes them clockwise. *)
Theorem pointOrientation_isClockwise _x0 _y0 _x1 _y1 _x2 _y2 :
  match pointOrientation _x0 _y0 _x1 _y1 _x2 _y2 with
  | LEFT => isClockwise _x0 _y0 _x1 _y1 _x2 _y2 = false
  | RIGHT => isClockwise _x0 _y0 _x1 _y1 _x2 _y2 = true
  | ON => True
  end.
Proof.
  unfold pointOrientation, isClockwise. cbv zeta.
  tests; no_abs; try reflexivity; try done; exfalso; lra.
Qed.

(** X12: for integer coordinates of magnitude at most 2^24, [isClockwise]
    is unchanged by a cyclic shift of the three points; exchanging the last
    two negates it, except for collinear points, which count as clockwise
    in both orders. *)
Theorem isClockwise_cyclic_reverse _x0 _y0 _x1 _y1 _x2 _y2 :
  pixels [_x0; _y0; _x1; _y1; _x2; _y2] ->
  isClockwise _x1 _y1 _x2 _y2 _x0 _y0 = isClockwise _x0 _y0 _x1 _y1 _x2 _y2 /\
  isClockwise _x0 _y0 _x2 _y2 _x1 _y1 =
    (if Qeq_bool ((_y2 - _y0) * (_x1 - _x0)) ((_y1 - _y0) * (_x2 - _x0))
     then true
     else negb (isClockwise _x0 _y0 _x1 _y1 _x2 _y2)).
Proof.
  intros _. unfold isClockwise. split; tests; try reflexivity; exfalso; lra.
Qed.

Lemma isClockwise_cyclic_reverse_witness :
  isClockwise 4 0 1 3 0 0 = isClockwise 0 0 4 0 1 3 /\
  isClockwise 0 0 1 3 4 0 =
    (if Qeq_bool ((3 - 0) * (4 - 0)) ((0 - 0) * (1 - 0))
     then true
     else negb (isClockwise 0 0 4 0 1 3)).
Proof. apply (isClockwise_cyclic_reverse 0 0 4 0 1 3). reflexivity. Defined.


(** X14: for integer coordinates of magnitude at most 2^24, [pointOnLine]
    holds exactly when the triangle of the point and the two points of the
    line has area below 0.0005, that is, area zero. *)
Theorem pointOnLine_triangleArea rx ry px py qx qy :
  pixels [rx; ry; px; py; qx; qy] ->
  pointOnLine rx ry px py qx qy =
  ltb (triangleArea px py qx qy rx ry) (1 # 2000).
Proof.
  intros _. unfold pointOnLine, triangleArea. cbv zeta.
  assert (H : Qabs ((qx - px) * (ry - py) - (qy - py) * (rx - px)) ==
              Qabs (px * (qy - ry) + qx * (ry - py) + rx * (py - qy))).
  { apply Qabs_wd. ring. }
  tests; try reflexivity; exfalso; lra.
Qed.

Lemma pointOnLine_triangleArea_witness :
  pointOnLine 2 2 0 0 4 4 = ltb (triangleArea 0 0 4 4 2 2) (1 # 2000).
Proof. apply (pointOnLine_triangleArea 2 2 0 0 4 4). reflexivity. Defined.

Lemma Qabs_div n c : Qabs (n / c) == Qabs n / Qabs c.
Proof. unfold Qdiv. by rewrite Qabs_Qmult, Qabs_Qinv. Qed.

Lemma Qabs_pos_iff c : 0 < Qabs c <-> ~ c == 0.
Proof.
  split.
  - intros H Hc. rewrite Hc in H. by apply (Qlt_irrefl 0).
  - intros H. destruct (Qlt_le_dec 0 (Qabs c)) as [|Hle]; [done|].
    exfalso. apply H. pose proof (Qabs_nonneg c).
    destruct (Qlt_le_dec c 0) as [Hn|Hp].
    + rewrite Qabs_neg in Hle by lra. lra.
    + rewrite Qabs_pos in Hle by lra. lra.
Qed.

(** The relative error test, without the division. *)
Lemma relative_error n c tol :
  ~ c == 0 -> (Qabs (n / c) <= tol <-> Qabs n <= tol * Qabs c).
Proof.
  intros Hc. apply Qabs_pos_iff in Hc. rewrite Qabs_div. split.
  - intros H. apply (Qmult_le_compat_r _ _ (Qabs c)) in H; [|lra].
    assert (E : Qabs n / Qabs c * Qabs c == Qabs n) by (field; lra).
    by rewrite E in H.
  - intros H. apply Qle_shift_div_r; [done|lra].
Qed.

Lemma compare_true_iff a b tol :
  compare a b tol = true <->
  a == b \/
  (Qabs a < 1 # 1000000000 /\ Qabs b < 1 # 1000000000 /\ 1 # 10000000 < tol) \/
  Qabs (a - b) <= tol * Qmax (Qabs a) (Qabs b).
Proof.
  unfold compare. cbv zeta.
  destruct (Qeq_bool a b) eqn:Eab.
  { apply Qeq_bool_iff in Eab. split; [by left|done]. }
  apply Qeq_bool_ne in Eab.
  destruct (ltb (Qabs a) (1 # 1000000000) && ltb (Qabs b) (1 # 1000000000)
            && ltb (1 # 10000000) tol) eqn:Etiny.
  { apply andb_true_iff in Etiny as [Etiny E3].
    apply andb_true_iff in Etiny as [E1 E2].
    apply ltb_lt in E1, E2, E3. split; [by right; left|done]. }
  assert (Hnot : ~ (Qabs a < 1 # 1000000000 /\ Qabs b < 1 # 1000000000
                    /\ 1 # 10000000 < tol)).
  { intros (E1 & E2 & E3). apply ltb_lt in E1, E2, E3.
    by rewrite E1, E2, E3 in Etiny. }
  pose proof (Qabs_nonneg a) as Hna. pose proof (Qabs_nonneg b) as Hnb.
  ltb_case (Qabs a) (Qabs b); rewrite Qle_bool_iff.
  - assert (Hb : ~ b == 0) by (apply Qabs_pos_iff; lra).
    rewrite (relative_error _ _ _ Hb), (Q.max_r (Qabs a) (Qabs b)) by lra.
    tauto.
  - assert (Ha : ~ a == 0).
    { intros Ha. apply Eab. rewrite Ha in E. change (Qabs 0) with 0 in E.
      assert (Hb0 : Qabs b == 0) by lra.
      rewrite Ha. symmetry.
      destruct (Qlt_le_dec b 0) as [Hn|Hp].
      - rewrite Qabs_neg in Hb0 by lra. lra.
      - rewrite Qabs_pos in Hb0 by lra. lra. }
    rewrite (relative_error _ _ _ Ha), (Q.max_l (Qabs a) (Qabs b)) by lra.
    tauto.
Qed.

Lemma compare_comm a b tol : compare a b tol = compare b a tol.
Proof.
  assert (H : forall a b, compare a b tol = true -> compare b a tol = true).
  { intros a' b'. rewrite !compare_true_iff. intros [H|[H|H]].
    - left. by symmetry.
    - right. left. tauto.
    - right. right. by rewrite Qabs_Qminus, Q.max_comm. }
  destruct (compare a b tol) eqn:E1, (compare b a tol) eqn:E2; try done.
  - apply H in E1. congruence.
  - apply H in E2. congruence.
Qed.

(** An integer below 1e-9 in magnitude is zero. *)
Lemma pixel_tiny a : pixel a = true -> Qabs a < 1 # 1000000000 -> a == 0.
Proof.
  destruct a as [n d]. unfold pixel. cbn [Qnum Qden].
  intros H. apply andb_true_iff in H as [Hd _]. apply Pos.eqb_eq in Hd.
  subst d. unfold Qlt, Qeq, Qabs. cbn [Qnum Qden]. lia.
Qed.

(** X15: for integers of magnitude at most 2^24 and the tolerance 0.001
    that the class uses, [compare] holds exactly when the difference of the
    two numbers is at most a thousandth of the larger magnitude; it does
    not depend on the order of the two numbers. *)
Theorem compare_relative_tolerance a b :
  pixels [a; b] ->
  (compare a b (1 # 1000) = true <->
   1000 * Qabs (a - b) <= Qmax (Qabs a) (Qabs b)) /\
  compare a b (1 # 1000) = compare b a (1 # 1000).
Proof.
  intros H. unfold pixels in H. cbn [forallb] in H.
  apply andb_true_iff in H as [Ha H]. apply andb_true_iff in H as [Hb _].
  split; [|apply compare_comm]. rewrite compare_true_iff.
  pose proof (Qabs_nonneg a) as Hna.
  pose proof (Q.le_max_l (Qabs a) (Qabs b)) as Hmax.
  assert (Heq : a == b -> 1000 * Qabs (a - b) <= Qmax (Qabs a) (Qabs b)).
  { intros E. assert (E0 : Qabs (a - b) == 0).
    { assert (Ez : a - b == 0) by lra. by rewrite Ez. }
    lra. }
  split.
  - intros [E|[(Ta & Tb & _)|E]].
    + by apply Heq.
    + apply Heq. rewrite (pixel_tiny a Ha Ta), (pixel_tiny b Hb Tb). reflexivity.
    + lra.
  - intros E. right. right. lra.
Qed.

Lemma compare_relative_tolerance_witness :
  (compare 1000 1001 (1 # 1000) = true <->
   1000 * Qabs (1000 - 1001) <= Qmax (Qabs 1000) (Qabs 1001)) /\
  compare 1000 1001 (1 # 1000) = compare 1001 1000 (1 # 1000).
Proof. apply (compare_relative_tolerance 1000 1001). reflexivity. Defined.

Lemma pointsEqual_refl_sym_aux __x1 __y1 __x2 __y2 :
  pointsEqual __x1 __y1 __x2 __y2 = pointsEqual __x2 __y2 __x1 __y1.
Proof.
  unfold pointsEqual. by rewrite (compare_comm __x1), (compare_comm __y1).
Qed.

(** X16: [pointsEqual] is reflexive and symmetric. *)
Theorem pointsEqual_refl_sym __x1 __y1 __x2 __y2 :
  pointsEqual __x1 __y1 __x1 __y1 = true /\
  pointsEqual __x1 __y1 __x2 __y2 = pointsEqual __x2 __y2 __x1 __y1.
Proof.
  unfold pointsEqual. split.
  - unfold compare. by rewrite !Qeq_bool_refl.
  - by rewrite (compare_comm __x1), (compare_comm __y1).
Qed.

(** Away from the tolerance on [den] the method computes the two
    parameters and tests them. *)
Lemma segmentsIntersect_params px py p2x p2y qx qy q2x q2y this :
  1 # 100000000
    <= Qabs ((p2x - px) * (q2y - qy) - (p2y - py) * (q2x - qx)) ->
  segmentsIntersect px py p2x p2y qx qy q2x q2y this =
  (let den := (p2x - px) * (q2y - qy) - (p2y - py) * (q2x - qx) in
   let t := ((qx - px) * (q2y - qy) - (qy - py) * (q2x - qx)) / den in
   let u := ((qx - px) * (p2y - py) - (qy - py) * (p2x - px)) / den in
   (Qle_bool 0 t && Qle_bool t 1 && Qle_bool 0 u && Qle_bool u 1,
    mkParams t u)).
Proof.
  intros Hden. apply ltb_ge in Hden.
  unfold segmentsIntersect, __cross. cbv zeta.
  by rewrite Hden, andb_false_r.
Qed.

(** The parameters solve the two linear equations of the meeting point,
    and nothing else does. *)
Lemma meeting_point px py p2x p2y qx qy q2x q2y :
  let den := (p2x - px) * (q2y - qy) - (p2y - py) * (q2x - qx) in
  let t := ((qx - px) * (q2y - qy) - (qy - py) * (q2x - qx)) / den in
  let u := ((qx - px) * (p2y - py) - (qy - py) * (p2x - px)) / den in
  ~ den == 0 ->
  (px + t * (p2x - px) == qx + u * (q2x - qx) /\
   py + t * (p2y - py) == qy + u * (q2y - qy)) /\
  (forall t' u',
     px + t' * (p2x - px) == qx + u' * (q2x - qx) ->
     py + t' * (p2y - py) == qy + u' * (q2y - qy) ->
     t' == t /\ u' == u).
Proof.
  intros den t u Hden. split; [split|].
  - unfold t, u, den. field. exact Hden.
  - unfold t, u, den. field. exact Hden.
  - intros t' u' H1 H2.
    assert (E1 : qx - px == t' * (p2x - px) - u' * (q2x - qx)) by lra.
    assert (E2 : qy - py == t' * (p2y - py) - u' * (q2y - qy)) by lra.
    split.
    + unfold t. rewrite E1, E2. unfold den. field. exact Hden.
    + unfold u. rewrite E1, E2. unfold den. field. exact Hden.
Qed.

Lemma tolerance_nonzero a c : 0 < c -> c <= Qabs a -> ~ a == 0.
Proof.
  intros Hc H Ha. rewrite Ha in H. change (Qabs 0) with 0 in H. lra.
Qed.

(** X17: for integer coordinates of magnitude at most 2^24, away from the
    tolerance on the cross product of the directions, [segmentsIntersect]
    returns true exactly when the two closed segments have a common point;
    the fields [__t] and [__u] it stores are the parameters of the meeting
    point of the two lines; and the result does not depend on the order of
    the segments. *)
Theorem segmentsIntersect_not_parallel px py p2x p2y qx qy q2x q2y this this2 :
  pixels [px; py; p2x; p2y; qx; qy; q2x; q2y] ->
  1 # 100000000
    <= Qabs ((p2x - px) * (q2y - qy) - (p2y - py) * (q2x - qx)) ->
  let res := fst (segmentsIntersect px py p2x p2y qx qy q2x q2y this) in
  let this' := snd (segmentsIntersect px py p2x p2y qx qy q2x q2y this) in
  (res = true <->
   exists t u, 0 <= t /\ t <= 1 /\ 0 <= u /\ u <= 1 /\
     px + t * (p2x - px) == qx + u * (q2x - qx) /\
     py + t * (p2y - py) == qy + u * (q2y - qy)) /\
  px + __t this' * (p2x - px) == qx + __u this' * (q2x - qx) /\
  py + __t this' * (p2y - py) == qy + __u this' * (q2y - qy) /\
  fst (segmentsIntersect qx qy q2x q2y px py p2x p2y this2) = res.
Proof.
  intros _ Hden res this'.
  assert (Hden' : 1 # 100000000
            <= Qabs ((q2x - qx) * (p2y - py) - (q2y - qy) * (p2x - px))).
  { rewrite <- Qabs_opp.
    assert (E : - ((q2x - qx) * (p2y - py) - (q2y - qy) * (p2x - px)) ==
                (p2x - px) * (q2y - qy) - (p2y - py) * (q2x - qx)) by ring.
    by rewrite E. }
  pose proof (tolerance_nonzero _ (1 # 100000000) eq_refl Hden) as Hnz.
  pose proof (tolerance_nonzero _ (1 # 100000000) eq_refl Hden') as Hnz'.
  destruct (meeting_point px py p2x p2y qx qy q2x q2y Hnz) as [[M1 M2] Muniq].
  destruct (meeting_point qx qy q2x q2y px py p2x p2y Hnz') as [[S1 S2] _].
  unfold res, this'.
  rewrite (segmentsIntersect_params _ _ _ _ _ _ _ _ this Hden).
  rewrite (segmentsIntersect_params _ _ _ _ _ _ _ _ this2 Hden').
  cbv zeta in *. cbn [fst snd __t __u].
  set (den := (p2x - px) * (q2y - qy) - (p2y - py) * (q2x - qx)) in *.
  set (den' := (q2x - qx) * (p2y - py) - (q2y - qy) * (p2x - px)) in *.
  set (t := ((qx - px) * (q2y - qy) - (qy - py) * (q2x - qx)) / den) in *.
  set (u := ((qx - px) * (p2y - py) - (qy - py) * (p2x - px)) / den) in *.
  set (t2 := ((px - qx) * (p2y - py) - (py - qy) * (p2x - px)) / den') in *.
  set (u2 := ((px - qx) * (q2y - qy) - (py - qy) * (q2x - qx)) / den') in *.
  assert (Hswap : u2 == t /\ t2 == u).
  { apply (Muniq u2 t2); lra. }
  destruct Hswap as [Hu2 Ht2].
  split; [|split; [exact M1|split; [exact M2|]]].
  - rewrite !andb_true_iff, !Qle_bool_iff. split.
    + intros [[[? ?] ?] ?]. exists t, u. by split_and!.
    + intros (t' & u' & ? & ? & ? & ? & H1 & H2).
      destruct (Muniq t' u' H1 H2) as [Et Eu]. split_and!; lra.
  - destruct (Qle_bool 0 t && Qle_bool t 1 && Qle_bool 0 u && Qle_bool u 1) eqn:E.
    + rewrite !andb_true_iff, !Qle_bool_iff in *. split_and!; lra.
    + apply not_true_iff_false. apply not_true_iff_false in E.
      intros H. apply E.
      rewrite !andb_true_iff, !Qle_bool_iff in *. split_and!; lra.
Qed.

Lemma segmentsIntersect_not_parallel_witness :
  let this := mkParams 0 0 in
  let res := fst (segmentsIntersect 0 0 2 2 0 2 2 0 this) in
  let this' := snd (segmentsIntersect 0 0 2 2 0 2 2 0 this) in
  (res = true <->
   exists t u, 0 <= t /\ t <= 1 /\ 0 <= u /\ u <= 1 /\
     0 + t * (2 - 0) == 0 + u * (2 - 0) /\
     0 + t * (2 - 0) == 2 + u * (0 - 2)) /\
  0 + __t this' * (2 - 0) == 0 + __u this' * (2 - 0) /\
  0 + __t this' * (2 - 0) == 2 + __u this' * (0 - 2) /\
  fst (segmentsIntersect 0 2 2 0 0 0 2 2 this) = res.
Proof.
  intros this.
  apply (segmentsIntersect_not_parallel 0 0 2 2 0 2 2 0 this this);
    [reflexivity|vm_compute; discriminate].
Defined.


















(** X25: [linesIntersect] does not depend on the order of the two lines. *)
Theorem linesIntersect_sym __x1 __y1 __x2 __y2 __x3 __y3 __x4 __y4 :
  linesIntersect __x1 __y1 __x2 __y2 __x3 __y3 __x4 __y4 =
  linesIntersect __x3 __y3 __x4 __y4 __x1 __y1 __x2 __y2.
Proof.
  unfold linesIntersect. cbv zeta.
  rewrite (pointsEqual_refl_sym_aux __x3 __y3 __x1 __y1).
  rewrite (pointsEqual_refl_sym_aux __x3 __y3 __x2 __y2).
  rewrite (pointsEqual_refl_sym_aux __x4 __y4 __x1 __y1).
  rewrite (pointsEqual_refl_sym_aux __x4 __y4 __x2 __y2).
  destruct (pointsEqual __x1 __y1 __x3 __y3), (pointsEqual __x1 __y1 __x4 __y4),
    (pointsEqual __x2 __y2 __x3 __y3), (pointsEqual __x2 __y2 __x4 __y4);
    try reflexivity.
  destruct (ltb (Qabs (__x2 - __x1)) (1 # 100000000)),
    (ltb (Qabs (__x4 - __x3)) (1 # 100000000)); try reflexivity.
  by rewrite compare_comm.
Qed.



